(** * metrics: timers, counters and gauges behind a registry

    A shallow embedding of [src/main.cpp] (namespace [metrics]) and the
    properties of its recording primitives and of its registry.

    Conventions of the embedding.
    - A [std::vector<T>] is a [list T], oldest element first;
      [emplace_back] adds at the end.
    - [chrono::system_clock::now()] is an input of the environment: every
      operation that reads the clock takes the reading as its argument [now].
    - A [std::unordered_map<string, T>] is a [gmap string T].  The map is
      node based, so a [T&] returned by [at] stays attached to its node for
      the life of the map; such a reference is modelled by the key of the
      node, and following a reference is a lookup in the current registry.
    - What C++ leaves undefined or reports by an exception ([at] on a
      missing key, [back] on an empty vector, following a reference that
      has no node) is [None]. *)

From Stdlib Require Import ZArith Lia Sorted.
From Stdlib Require Import Floats.SpecFloat.
From stdpp Require Import gmap strings list fin_maps.

Local Open Scope Z_scope.

(** ** Value types

    The type names of the source are kept as abbreviations. *)

(** [time_point]: a [chrono::time_point<system_clock>], as the number of
    clock ticks since the epoch.  The ticks are taken to be nanoseconds, so
    that [duration_cast<period>] below is the identity; the tick type is a
    signed 64-bit integer whose overflow is undefined, and differences of
    clock readings are computed here in [Z]. *)
Abbreviation time_point := Z (only parsing).

(** [period = chrono::nanoseconds]. *)
Abbreviation period := Z (only parsing).

(** [count_type = unsigned long]: a value in [0, 2^64) (LP64), all
    arithmetic modulo [count_modulus]. *)
Abbreviation count_type := Z (only parsing).
Definition count_bits : Z := 64.
Definition count_modulus : Z := 2 ^ count_bits.
Definition wrap_count (x : Z) : count_type := x mod count_modulus.

(** [gauged_type = double].  The code only stores and returns gauge values,
    so the IEEE 754 datum is all that is needed of them. *)
Abbreviation gauged_type := spec_float (only parsing).
Definition gauged_zero : gauged_type := S754_zero false.

Abbreviation dur_at_time := (time_point * period)%type (only parsing).
Abbreviation count_at_time := (time_point * count_type)%type (only parsing).
Abbreviation gauge_at_time := (time_point * gauged_type)%type (only parsing).

(** A value-initialised [time_point]. *)
Definition epoch : time_point := 0.

Definition duration_cast (d : Z) : period := d.

(** ** std::vector *)

Section Vector.
Context {A : Type}.

(** [vector<A> v{n}] where [n] does not convert to [A]: the constructor
    [vector(size_type)] is chosen, and the vector holds [n]
    value-initialised elements [d]. *)
Definition vector_n (n : Z) (d : A) : list A := replicate (Z.to_nat n) d.

Definition emplace_back (v : list A) (x : A) : list A := v ++ [x].

Definition vec_empty (v : list A) : bool :=
  match v with [] => true | _ :: _ => false end.

(** [v.back()]; undefined on an empty vector. *)
Definition back (v : list A) : option A := last v.

(** [v.size()]. *)
Definition vec_size (v : list A) : Z := Z.of_nat (length v).

(** Move construction from [v]: the new vector, and what is left in [v]
    (a moved-from vector is empty). *)
Definition vec_move (v : list A) : list A * list A := (v, []).
End Vector.

(** The literal [10 * 1000 * 1000] of the three default member
    initialisers. *)
Definition prealloc : Z := 10 * 1000 * 1000.

(** ** Tokens *)

(** *** time_token *)

Record time_token : Type := mk_time_token { durations : list dur_at_time }.

(** [explicit time_token(Internal) {}]: [durations] takes its default member
    initialiser [durations{10 * 1000 * 1000}]. *)
Definition time_token_new : time_token :=
  {| durations := vector_n prealloc (epoch, 0) |}.

(** [time_token(time_token &&other)]: the new token and the state [other]
    is left in. *)
Definition time_token_move (other : time_token) : time_token * time_token :=
  let '(v, rest) := vec_move (durations other) in
  ({| durations := v |}, {| durations := rest |}).

(** The effect of [stopper::stop] on the token the stopper refers to. *)
Definition time_token_report (start now : time_point) (t : time_token)
  : time_token :=
  {| durations := emplace_back (durations t) (now, duration_cast (now - start)) |}.

(** *** count_token *)

Record count_token : Type :=
  mk_count_token { counts : list count_at_time; current : count_type }.

Definition count_token_new : count_token :=
  {| counts := vector_n prealloc (epoch, 0); current := 0 |}.

(** [current += many] on [atomic<count_type>]: the stored and returned new
    value. *)
Definition atomic_add (cur many : count_type) : count_type :=
  wrap_count (cur + many).

(** [operator+=(many)]. *)
Definition count_token_add (now : time_point) (many : count_type)
    (c : count_token) : count_token :=
  let cur := atomic_add (current c) many in
  {| counts := emplace_back (counts c) (now, cur); current := cur |}.

(** [operator++(int)]. *)
Definition count_token_incr (now : time_point) (c : count_token)
  : count_token :=
  count_token_add now 1 c.

(** *** gauge_token *)

Record gauge_token : Type := mk_gauge_token { readings : list gauge_at_time }.

Definition gauge_token_new : gauge_token :=
  {| readings := vector_n prealloc (epoch, gauged_zero) |}.

Definition gauge_token_move (other : gauge_token) : gauge_token * gauge_token :=
  let '(v, rest) := vec_move (readings other) in
  ({| readings := v |}, {| readings := rest |}).

(** [set(val)]. *)
Definition gauge_token_set (now : time_point) (val : gauged_type)
    (g : gauge_token) : gauge_token :=
  {| readings := emplace_back (readings g) (now, val) |}.

(** [operator=(val)]. *)
Definition gauge_token_assign (now : time_point) (val : gauged_type)
    (g : gauge_token) : gauge_token :=
  gauge_token_set now val g.

(** The two arms of the conditional in [operator gauged_type]. *)
Inductive cast_branch : Type := empty_store | last_sample.

Definition gauge_cast_branch (g : gauge_token) : cast_branch :=
  if vec_empty (readings g) then empty_store else last_sample.

(** [explicit operator gauged_type()]. *)
Definition gauge_token_cast (g : gauge_token) : option gauged_type :=
  match gauge_cast_branch g with
  | empty_store => Some gauged_zero
  | last_sample => snd <$> back (readings g)
  end.

(** The gauge states that construction, [set], [operator=] and the move
    constructor lead to. *)
Inductive gauge_reachable : gauge_token → Prop :=
| gauge_reach_new : gauge_reachable gauge_token_new
| gauge_reach_set now val g :
    gauge_reachable g → gauge_reachable (gauge_token_set now val g)
| gauge_reach_assign now val g :
    gauge_reachable g → gauge_reachable (gauge_token_assign now val g)
| gauge_reach_moved_to g :
    gauge_reachable g → gauge_reachable (fst (gauge_token_move g))
| gauge_reach_moved_from g :
    gauge_reachable g → gauge_reachable (snd (gauge_token_move g)).

(** The same without the move constructor: the states a gauge goes through
    when it is only recorded to and read. *)
Inductive gauge_recorded : gauge_token → Prop :=
| gauge_rec_new : gauge_recorded gauge_token_new
| gauge_rec_set now val g :
    gauge_recorded g → gauge_recorded (gauge_token_set now val g)
| gauge_rec_assign now val g :
    gauge_recorded g → gauge_recorded (gauge_token_assign now val g).

(** ** registry *)

Record registry : Type := mk_registry {
  timers : gmap string time_token;
  counters : gmap string count_token;
  gauges : gmap string gauge_token
}.

(** [registry::create()]. *)
Definition create : registry :=
  {| timers := ∅; counters := ∅; gauges := ∅ |}.

(** [registry(registry &&other)]: the maps change owner, the nodes stay. *)
Definition registry_move (other : registry) : registry * registry :=
  (other, create).

Section UnorderedMap.
Context {T : Type}.

(** [m.emplace(name, Internal{})]: a node holding a newly constructed
    token is added unless the key is present. *)
Definition emplace (name : string) (fresh : T) (m : gmap string T)
  : gmap string T :=
  match m !! name with
  | Some _ => m
  | None => <[name := fresh]> m
  end.

(** [m.at(name)]; throws [out_of_range] when the key is absent. *)
Definition at_key (name : string) (m : gmap string T) : option T :=
  m !! name.
End UnorderedMap.

(** References to the tokens of a registry, one type per kind. *)
Record time_ref : Type := mk_time_ref { time_key : string }.
Record count_ref : Type := mk_count_ref { count_key : string }.
Record gauge_ref : Type := mk_gauge_ref { gauge_key : string }.

(** [registry::run]. *)
Definition run (name : string) (r : registry) : registry * option time_ref :=
  let r' := {| timers := emplace name time_token_new (timers r);
               counters := counters r; gauges := gauges r |} in
  (r', (λ _, mk_time_ref name) <$> at_key name (timers r')).

(** [registry::count]. *)
Definition count (name : string) (r : registry) : registry * option count_ref :=
  let r' := {| timers := timers r;
               counters := emplace name count_token_new (counters r);
               gauges := gauges r |} in
  (r', (λ _, mk_count_ref name) <$> at_key name (counters r')).

(** [registry::gauge]. *)
Definition gauge (name : string) (r : registry) : registry * option gauge_ref :=
  let r' := {| timers := timers r; counters := counters r;
               gauges := emplace name gauge_token_new (gauges r) |} in
  (r', (λ _, mk_gauge_ref name) <$> at_key name (gauges r')).

(** ** Operations through references *)

(** [time_token::stopper]. *)
Record stopper : Type := mk_stopper { start : time_point; time_tok : time_ref }.

(** Applying a member function that changes the token behind a reference. *)
Definition update_time (h : time_ref) (f : time_token → time_token)
    (r : registry) : option registry :=
  t ← timers r !! time_key h;
  Some {| timers := <[time_key h := f t]> (timers r);
          counters := counters r; gauges := gauges r |}.

Definition update_count (h : count_ref) (f : count_token → count_token)
    (r : registry) : option registry :=
  c ← counters r !! count_key h;
  Some {| timers := timers r;
          counters := <[count_key h := f c]> (counters r);
          gauges := gauges r |}.

Definition update_gauge (h : gauge_ref) (f : gauge_token → gauge_token)
    (r : registry) : option registry :=
  g ← gauges r !! gauge_key h;
  Some {| timers := timers r; counters := counters r;
          gauges := <[gauge_key h := f g]> (gauges r) |}.

(** [time_token::operator()()]: [return {clock::now(), *this}]. *)
Definition time_start (now : time_point) (h : time_ref) : stopper :=
  {| start := now; time_tok := h |}.

(** [stopper::stop()]. *)
Definition stop (now : time_point) (s : stopper) (r : registry)
  : option registry :=
  update_time (time_tok s) (time_token_report (start s) now) r.

(** The lookup and recording operations: the three lookups of the registry
    and the member functions of the tokens and of the stopper.  The move
    constructors of the tokens, which nothing in the registry calls, are
    not among them; they are [time_token_move] and [gauge_token_move]
    above. *)
Inductive op : Type :=
| op_run (name : string)
| op_count (name : string)
| op_gauge (name : string)
| op_start (h : time_ref)
| op_stop (s : stopper)
| op_add (h : count_ref) (many : count_type)
| op_incr (h : count_ref)
| op_set (h : gauge_ref) (val : gauged_type)
| op_assign (h : gauge_ref) (val : gauged_type)
| op_cast (h : gauge_ref).

Inductive result : Type :=
| ret_void
| ret_time (h : time_ref)
| ret_count (h : count_ref)
| ret_gauge (h : gauge_ref)
| ret_stopper (s : stopper)
| ret_value (val : gauged_type).

(** One operation, run on registry [r] with the clock showing [now]. *)
Definition exec (now : time_point) (o : op) (r : registry)
  : option (registry * result) :=
  match o with
  | op_run name => let '(r', h) := run name r in h' ← h; Some (r', ret_time h')
  | op_count name => let '(r', h) := count name r in h' ← h; Some (r', ret_count h')
  | op_gauge name => let '(r', h) := gauge name r in h' ← h; Some (r', ret_gauge h')
  | op_start h =>
      _ ← timers r !! time_key h; Some (r, ret_stopper (time_start now h))
  | op_stop s => r' ← stop now s r; Some (r', ret_void)
  | op_add h many =>
      r' ← update_count h (count_token_add now many) r; Some (r', ret_count h)
  | op_incr h => r' ← update_count h (count_token_incr now) r; Some (r', ret_void)
  | op_set h val => r' ← update_gauge h (gauge_token_set now val) r; Some (r', ret_void)
  | op_assign h val =>
      r' ← update_gauge h (gauge_token_assign now val) r; Some (r', ret_gauge h)
  | op_cast h =>
      g ← gauges r !! gauge_key h; val ← gauge_token_cast g; Some (r, ret_value val)
  end.

(** A run: the operations in program order, each with the clock reading it
    gets. *)
Fixpoint exec_all (tr : list (time_point * op)) (r : registry)
  : option registry :=
  match tr with
  | [] => Some r
  | (now, o) :: tr' =>
      match exec now o r with
      | Some (r', _) => exec_all tr' r'
      | None => None
      end
  end.

(** [timed]: the constructor starts a stopper, the destructor stops it. *)
Definition timed_enter (now : time_point) (h : time_ref) : stopper :=
  time_start now h.
Definition timed_leave (now : time_point) (s : stopper) (r : registry)
  : option registry :=
  stop now s r.

(** The registries that [create] and the operations lead to. *)
Inductive reachable : registry → Prop :=
| reach_create : reachable create
| reach_exec now o r r' res :
    reachable r → exec now o r = Some (r', res) → reachable r'.

(** [r'] extends [r]: every token of [r] is still there, at the same key,
    and its store has only grown at the end. *)
Record extends (r r' : registry) : Prop := mk_extends {
  extends_timers : ∀ k t, timers r !! k = Some t →
    ∃ t', timers r' !! k = Some t' ∧ durations t `prefix_of` durations t';
  extends_counters : ∀ k c, counters r !! k = Some c →
    ∃ c', counters r' !! k = Some c' ∧ counts c `prefix_of` counts c';
  extends_gauges : ∀ k g, gauges r !! k = Some g →
    ∃ g', gauges r' !! k = Some g' ∧ readings g `prefix_of` readings g'
}.

(** The references an operation goes through have a node in [r]. *)
Definition refs_valid (o : op) (r : registry) : Prop :=
  match o with
  | op_run _ | op_count _ | op_gauge _ => True
  | op_start h => is_Some (timers r !! time_key h)
  | op_stop s => is_Some (timers r !! time_key (time_tok s))
  | op_add h _ | op_incr h => is_Some (counters r !! count_key h)
  | op_set h _ | op_assign h _ | op_cast h => is_Some (gauges r !! gauge_key h)
  end.

(** Traces of one kind of recording through one reference. *)
Definition stops (s : stopper) (nows : list time_point)
  : list (time_point * op) :=
  (λ now, (now, op_stop s)) <$> nows.

Definition adds (h : count_ref) (incs : list (time_point * count_type))
  : list (time_point * op) :=
  (λ '(now, many), (now, op_add h many)) <$> incs.

Definition sets (h : gauge_ref) (vals : list (time_point * gauged_type))
  : list (time_point * op) :=
  (λ '(now, val), (now, op_set h val)) <$> vals.

(** The same on a token. *)
Definition time_token_reports (start : time_point) (nows : list time_point)
    (t : time_token) : time_token :=
  foldl (λ t now, time_token_report start now t) t nows.

Definition count_token_adds (incs : list (time_point * count_type))
    (c : count_token) : count_token :=
  foldl (λ c '(now, many), count_token_add now many c) c incs.

Definition gauge_token_sets (vals : list (time_point * gauged_type))
    (g : gauge_token) : gauge_token :=
  foldl (λ g '(now, val), gauge_token_set now val g) g vals.

(** The sum of a list of amounts. *)
Definition total (ks : list Z) : Z := foldr Z.add 0 ks.

(** The elapsed times of a list of duration samples. *)
Definition elapsed (l : list dur_at_time) : list period := snd <$> l.

(** The samples that a run of [operator+=] appends to a counter whose total
    is [base]: the [i]-th carries the clock reading of the [i]-th call and
    [base] plus the first [i] amounts, as an [unsigned long]. *)
Definition count_samples (base : Z) (incs : list (time_point * count_type))
  : list count_at_time :=
  imap (λ i inc, (inc.1, wrap_count (base + total (take (S i) incs.*2)))) incs.

(** The samples that stopping a stopper at the readings [nows] appends. *)
Definition dur_samples (start : time_point) (nows : list time_point)
  : list dur_at_time :=
  (λ now, (now, now - start)) <$> nows.

(** Successive elements of [l] never decrease. *)
Definition nondecreasing (l : list Z) : Prop :=
  ∀ i a b, l !! i = Some a → l !! S i = Some b → a ≤ b.

(** What holds of the tokens of a reachable registry: the store of a timer
    or of a counter begins with the elements it was constructed with, a
    running total is an [unsigned long], and a gauge has only been set. *)
Definition time_ok (t : time_token) : Prop :=
  durations time_token_new `prefix_of` durations t.

Definition count_ok (c : count_token) : Prop :=
  counts count_token_new `prefix_of` counts c
  ∧ 0 ≤ current c < count_modulus.

Definition gauge_ok (g : gauge_token) : Prop := gauge_recorded g.

Record registry_ok (r : registry) : Prop := mk_registry_ok {
  ok_timers : map_Forall (λ _, time_ok) (timers r);
  ok_counters : map_Forall (λ _, count_ok) (counters r);
  ok_gauges : map_Forall (λ _, gauge_ok) (gauges r)
}.

(** ** Further traces and client code *)

(** The three kinds of token, and the token an operation writes to, if
    any: a lookup writes under its name in the map of its kind, a recording
    operation to the token behind its reference, and [operator()] and the
    conversion of a gauge only read. *)
Inductive kind : Type := timer_kind | counter_kind | gauge_kind.

#[global] Instance kind_eq_dec : EqDecision kind.
Proof. solve_decision. Defined.

Definition op_target (o : op) : option (kind * string) :=
  match o with
  | op_run name => Some (timer_kind, name)
  | op_count name => Some (counter_kind, name)
  | op_gauge name => Some (gauge_kind, name)
  | op_start _ | op_cast _ => None
  | op_stop s => Some (timer_kind, time_key (time_tok s))
  | op_add h _ | op_incr h => Some (counter_kind, count_key h)
  | op_set h _ | op_assign h _ => Some (gauge_kind, gauge_key h)
  end.

(** A lookup of the given kind. *)
Definition obtain (k : kind) (name : string) : op :=
  match k with
  | timer_kind => op_run name
  | counter_kind => op_count name
  | gauge_kind => op_gauge name
  end.

Definition obtains (l : list (kind * string)) : list (time_point * op) :=
  (λ '(k, name), (epoch, obtain k name)) <$> l.

(** The names that a list of lookups asks for in kind [k]. *)
Definition asked (k : kind) (l : list (kind * string)) : list string :=
  snd <$> filter (λ p, p.1 = k) l.

(** Calls on a counter: [c++] or [c += many]. *)
Inductive count_call : Type := call_incr | call_add (many : count_type).

Definition call_amount (c : count_call) : count_type :=
  match c with call_incr => 1 | call_add many => many end.

Definition count_calls (h : count_ref) (l : list (time_point * count_call))
  : list (time_point * op) :=
  (λ '(now, c), (now, match c with
                      | call_incr => op_incr h
                      | call_add many => op_add h many
                      end)) <$> l.

(** What a list of counter calls adds, call by call. *)
Definition call_amounts (l : list (time_point * count_call))
  : list (time_point * count_type) :=
  (λ '(now, c), (now, call_amount c)) <$> l.

(** Calls on a gauge: [g.set(val)] or [g = val]. *)
Inductive gauge_call : Type :=
| call_set (val : gauged_type)
| call_assign (val : gauged_type).

Definition call_value (c : gauge_call) : gauged_type :=
  match c with call_set val | call_assign val => val end.

Definition gauge_calls (h : gauge_ref) (l : list (time_point * gauge_call))
  : list (time_point * op) :=
  (λ '(now, c), (now, match c with
                      | call_set val => op_set h val
                      | call_assign val => op_assign h val
                      end)) <$> l.

(** The samples that a list of gauge calls appends. *)
Definition call_values (l : list (time_point * gauge_call))
  : list gauge_at_time :=
  (λ '(now, c), (now, call_value c)) <$> l.

(** Stops of several stoppers, in the order they happen. *)
Definition stops_of (l : list (stopper * time_point)) : list (time_point * op) :=
  (λ '(s, now), (now, op_stop s)) <$> l.

(** The samples that these stops append. *)
Definition stop_samples (l : list (stopper * time_point)) : list dur_at_time :=
  (λ '(s, now), (now, now - start s)) <$> l.

(** A block [{ timed t{time_tok}; body }]: the constructor reads the clock
    and makes the stopper, the statements of the block run, and the
    destructor stops the stopper when the block is left.  A block left
    early is a block with a shorter [body]. *)
Definition timed_scope (now_in now_out : time_point) (h : time_ref)
    (body : list (time_point * op)) (r : registry) : option registry :=
  _ ← timers r !! time_key h;
  let t := timed_enter now_in h in
  r1 ← exec_all body r;
  timed_leave now_out t r1.

(** Client code [time_token taken{std::move(ref)}] on a reference into the
    registry: the new token, and the registry, in which the token behind
    the reference is what the move constructor leaves. *)
Definition take_timer (h : time_ref) (r : registry)
  : option (time_token * registry) :=
  t ← timers r !! time_key h;
  let '(taken, rest) := time_token_move t in
  Some (taken, {| timers := <[time_key h := rest]> (timers r);
                  counters := counters r; gauges := gauges r |}).

(** The same for [gauge_token taken{std::move(ref)}]. *)
Definition take_gauge (h : gauge_ref) (r : registry)
  : option (gauge_token * registry) :=
  g ← gauges r !! gauge_key h;
  let '(taken, rest) := gauge_token_move g in
  Some (taken, {| timers := timers r; counters := counters r;
                  gauges := <[gauge_key h := rest]> (gauges r) |}).

(** The conversion of an [int] literal to [gauged_type] (binary64, round to
    nearest). *)
Definition gauged_of_int (n : Z) : gauged_type :=
  binary_normalize 53 1024 n 0 false.

(** [main], with [clock i] the reading that the [i]-th call of
    [clock::now()] returns: the value it passes to [std::cout] as the
    gauge, and the registry when it returns. *)
Definition main (clock : nat → time_point) : option (gauged_type * registry) :=
  let m := create in
  let '(m, query_tok) := run "query" m in
  query_tok ← query_tok;
  let '(m, gauge_tok) := gauge "threads" m in
  gauge_tok ← gauge_tok;
  let '(m, count_t) := count "completed" m in
  count_t ← count_t;
  _ ← timers m !! time_key query_tok;
  let oper := time_start (clock 0%nat) query_tok in
  m ← update_gauge gauge_tok (gauge_token_set (clock 1%nat) (gauged_of_int 100)) m;
  m ← update_gauge gauge_tok
        (gauge_token_assign (clock 2%nat) (gauged_of_int 50)) m;
  m ← update_count count_t (count_token_incr (clock 3%nat)) m;
  m ← update_count count_t (count_token_add (clock 4%nat) 100) m;
  g ← gauges m !! gauge_key gauge_tok;
  printed ← gauge_token_cast g;
  m ← stop (clock 5%nat) oper m;
  m ← timed_scope (clock 6%nat) (clock 7%nat) query_tok [] m;
  Some (printed, m).

(** * Properties *)

(** ** std::vector *)

Section VectorFacts.
Context {A : Type}.
Implicit Types (v : list A) (x d : A).

Lemma vector_n_size n d : 0 ≤ n → vec_size (vector_n n d) = n.
Proof. intros Hn. unfold vec_size, vector_n. rewrite length_replicate. lia. Qed.

Lemma vector_n_back n d : 0 < n → back (vector_n n d) = Some d.
Proof.
  intros Hn. unfold back, vector_n.
  replace (Z.to_nat n) with (S (Z.to_nat (n - 1))) by lia.
  rewrite replicate_S_end. apply last_snoc.
Qed.

Lemma vector_n_not_empty n d : 0 < n → vec_empty (vector_n n d) = false.
Proof.
  intros Hn. unfold vector_n.
  replace (Z.to_nat n) with (S (Z.to_nat (n - 1))) by lia. reflexivity.
Qed.

Lemma emplace_back_size v x : vec_size (emplace_back v x) = vec_size v + 1.
Proof. unfold vec_size, emplace_back. rewrite length_app. simpl. lia. Qed.

Lemma emplace_back_back v x : back (emplace_back v x) = Some x.
Proof. apply last_snoc. Qed.

Lemma emplace_back_not_empty v x : vec_empty (emplace_back v x) = false.
Proof. unfold emplace_back. destruct v; reflexivity. Qed.

Lemma emplace_back_prefix v x : v `prefix_of` emplace_back v x.
Proof. by apply prefix_app_r. Qed.

Lemma vec_empty_app v w : vec_empty v = false → vec_empty (v ++ w) = false.
Proof. destruct v; [discriminate | reflexivity]. Qed.

Lemma vec_empty_false_iff v : vec_empty v = false ↔ v ≠ [].
Proof. destruct v; simpl; split; intros H; try done. Qed.
End VectorFacts.

Lemma prealloc_pos : 0 < prealloc.
Proof. reflexivity. Qed.

Lemma prealloc_eq : prealloc = 10000000.
Proof. reflexivity. Qed.

(** The initial stores are reasoned about through the two facts above and
    never unfolded into ten million list cells. *)
#[global] Opaque prealloc.

Lemma count_modulus_pos : 0 < count_modulus.
Proof. reflexivity. Qed.

(** ** std::unordered_map *)

Section UnorderedMapFacts.
Context {T : Type}.
Implicit Types (m : gmap string T) (name k : string) (fresh t : T).

Lemma emplace_present name fresh m t :
  m !! name = Some t → emplace name fresh m = m.
Proof. intros H. unfold emplace. by rewrite H. Qed.

Lemma emplace_absent name fresh m :
  m !! name = None → emplace name fresh m = <[name := fresh]> m.
Proof. intros H. unfold emplace. by rewrite H. Qed.

Lemma emplace_lookup name fresh m :
  emplace name fresh m !! name = Some (default fresh (m !! name)).
Proof.
  unfold emplace. destruct (m !! name) as [t|] eqn:H; simpl.
  - exact H.
  - apply lookup_insert_eq.
Qed.

Lemma emplace_keeps name fresh m k t :
  m !! k = Some t → emplace name fresh m !! k = Some t.
Proof.
  intros H. unfold emplace. destruct (m !! name) as [t'|] eqn:Hn; [done|].
  rewrite lookup_insert_ne; [done|]. intros ->. rewrite H in Hn. discriminate.
Qed.

Lemma emplace_other name fresh m k :
  k ≠ name → emplace name fresh m !! k = m !! k.
Proof.
  intros H. unfold emplace. destruct (m !! name); [done|].
  by rewrite lookup_insert_ne.
Qed.

Lemma emplace_idem name fresh fresh' m :
  emplace name fresh' (emplace name fresh m) = emplace name fresh m.
Proof.
  pose proof (emplace_lookup name fresh m) as H.
  by rewrite (emplace_present _ _ _ _ H).
Qed.
End UnorderedMapFacts.

(** ** Tokens *)

Lemma total_app ks ks' : total (ks ++ ks') = total ks + total ks'.
Proof. unfold total. induction ks as [|k ks IH]; simpl; lia. Qed.

Lemma total_nonneg ks : Forall (λ k, 0 ≤ k) ks → 0 ≤ total ks.
Proof. unfold total. induction 1; simpl; lia. Qed.

Lemma total_take_le ks n :
  Forall (λ k, 0 ≤ k) ks → 0 ≤ total (take n ks) ≤ total ks.
Proof.
  intros H. rewrite <- (take_drop n ks) at 3. rewrite total_app.
  pose proof (total_nonneg (take n ks) (Forall_take _ _ _ H)).
  pose proof (total_nonneg (drop n ks) (Forall_drop _ _ _ H)).
  lia.
Qed.

Lemma wrap_count_range x : 0 ≤ wrap_count x < count_modulus.
Proof. apply Z.mod_pos_bound, count_modulus_pos. Qed.

Lemma wrap_count_small x : 0 ≤ x < count_modulus → wrap_count x = x.
Proof. apply Z.mod_small. Qed.

Lemma wrap_count_add_l x y : wrap_count (wrap_count x + y) = wrap_count (x + y).
Proof. unfold wrap_count. apply Zplus_mod_idemp_l. Qed.

Lemma count_samples_length base incs :
  length (count_samples base incs) = length incs.
Proof. unfold count_samples. apply length_imap. Qed.

Lemma count_samples_lookup base incs i now k :
  incs !! i = Some (now, k) →
  count_samples base incs !! i
  = Some (now, wrap_count (base + total (take (S i) incs.*2))).
Proof.
  intros H. unfold count_samples. rewrite list_lookup_imap, H. reflexivity.
Qed.

Lemma count_samples_snoc base incs now k :
  count_samples base (incs ++ [(now, k)])
  = count_samples base incs ++ [(now, wrap_count (base + total incs.*2 + k))].
Proof.
  unfold count_samples. rewrite imap_app. f_equal.
  - apply imap_ext. intros i [now' k'] Hi. simpl. do 3 f_equal.
    rewrite fmap_app, take_app_le; [done|].
    rewrite length_fmap. apply lookup_lt_Some in Hi. lia.
  - simpl. do 3 f_equal. rewrite Nat.add_0_r, fmap_app. simpl.
    rewrite take_app_ge by (rewrite length_fmap; lia).
    rewrite length_fmap, total_app.
    replace (S (length incs) - length incs)%nat with 1%nat by lia.
    simpl. lia.
Qed.

Lemma count_token_adds_snoc incs now k c :
  count_token_adds (incs ++ [(now, k)]) c
  = count_token_add now k (count_token_adds incs c).
Proof. unfold count_token_adds. by rewrite foldl_snoc. Qed.

(** A run of [operator+=] on one counter. *)
Lemma count_token_adds_spec incs c :
  0 ≤ current c < count_modulus →
  current (count_token_adds incs c) = wrap_count (current c + total incs.*2)
  ∧ counts (count_token_adds incs c)
    = counts c ++ count_samples (current c) incs.
Proof.
  intros Hc. induction incs as [|[now k] incs [IHcur IHcounts]] using rev_ind.
  - simpl. rewrite Z.add_0_r, wrap_count_small by done.
    by rewrite app_nil_r.
  - rewrite count_token_adds_snoc, count_samples_snoc. unfold count_token_add.
    simpl. unfold atomic_add, emplace_back.
    rewrite IHcur, IHcounts, wrap_count_add_l, fmap_app, total_app. simpl.
    rewrite <- app_assoc. split; [f_equal; lia | reflexivity].
Qed.

Lemma time_token_reports_spec start nows t :
  durations (time_token_reports start nows t)
  = durations t ++ dur_samples start nows.
Proof.
  revert t. induction nows as [|now nows IH]; intros t; simpl.
  - by rewrite app_nil_r.
  - unfold time_token_reports in *. simpl. rewrite IH. simpl.
    unfold emplace_back, duration_cast, dur_samples.
    by rewrite <- app_assoc.
Qed.

Lemma gauge_token_sets_spec vals g :
  readings (gauge_token_sets vals g) = readings g ++ vals.
Proof.
  revert g. induction vals as [|[now val] vals IH]; intros g; simpl.
  - by rewrite app_nil_r.
  - unfold gauge_token_sets in *. simpl. rewrite IH. simpl.
    unfold emplace_back. by rewrite <- app_assoc.
Qed.

(** Reading a gauge whose store is not empty gives its last sample. *)
Lemma gauge_token_cast_snoc v now val :
  gauge_token_cast {| readings := v ++ [(now, val)] |} = Some val.
Proof.
  unfold gauge_token_cast, gauge_cast_branch. cbn [readings].
  destruct (vec_empty _) eqn:E.
  - by destruct v.
  - unfold back. by rewrite last_snoc.
Qed.

Lemma gauge_token_new_cast : gauge_token_cast gauge_token_new = Some gauged_zero.
Proof.
  unfold gauge_token_cast, gauge_cast_branch, gauge_token_new. cbn [readings].
  rewrite vector_n_not_empty by apply prealloc_pos.
  by rewrite vector_n_back by apply prealloc_pos.
Qed.

(** ** registry *)

Lemma run_returns name r :
  run name r
  = ({| timers := emplace name time_token_new (timers r);
        counters := counters r; gauges := gauges r |},
     Some (mk_time_ref name)).
Proof. unfold run, at_key. cbn [timers counters gauges]. by rewrite emplace_lookup. Qed.

Lemma count_returns name r :
  count name r
  = ({| timers := timers r;
        counters := emplace name count_token_new (counters r);
        gauges := gauges r |},
     Some (mk_count_ref name)).
Proof. unfold count, at_key. cbn [timers counters gauges]. by rewrite emplace_lookup. Qed.

Lemma gauge_returns name r :
  gauge name r
  = ({| timers := timers r; counters := counters r;
        gauges := emplace name gauge_token_new (gauges r) |},
     Some (mk_gauge_ref name)).
Proof. unfold gauge, at_key. cbn [timers counters gauges]. by rewrite emplace_lookup. Qed.

Lemma registry_eta r :
  {| timers := timers r; counters := counters r; gauges := gauges r |} = r.
Proof. by destruct r. Qed.

Lemma update_time_Some h f r t :
  timers r !! time_key h = Some t →
  update_time h f r
  = Some {| timers := <[time_key h := f t]> (timers r);
            counters := counters r; gauges := gauges r |}.
Proof. intros H. unfold update_time. by rewrite H. Qed.

Lemma update_count_Some h f r c :
  counters r !! count_key h = Some c →
  update_count h f r
  = Some {| timers := timers r;
            counters := <[count_key h := f c]> (counters r);
            gauges := gauges r |}.
Proof. intros H. unfold update_count. by rewrite H. Qed.

Lemma update_gauge_Some h f r g :
  gauges r !! gauge_key h = Some g →
  update_gauge h f r
  = Some {| timers := timers r; counters := counters r;
            gauges := <[gauge_key h := f g]> (gauges r) |}.
Proof. intros H. unfold update_gauge. by rewrite H. Qed.

Lemma exec_all_app tr tr' r :
  exec_all (tr ++ tr') r = exec_all tr r ≫= exec_all tr'.
Proof.
  revert r. induction tr as [|[now o] tr IH]; intros r; simpl; [done|].
  destruct (exec now o r) as [[r' res]|]; [apply IH | done].
Qed.

(** Stopping one stopper at the clock readings [nows]. *)
Lemma exec_all_stops s nows r t :
  timers r !! time_key (time_tok s) = Some t →
  exec_all (stops s nows) r
  = Some {| timers := <[time_key (time_tok s) :=
                          time_token_reports (start s) nows t]> (timers r);
            counters := counters r; gauges := gauges r |}.
Proof.
  revert r t. induction nows as [|now nows IH]; intros r t Ht; simpl.
  - by rewrite insert_id, registry_eta.
  - unfold stop. rewrite (update_time_Some _ _ _ _ Ht). simpl.
    erewrite IH by apply lookup_insert_eq. simpl.
    by rewrite insert_insert_eq.
Qed.

(** Adding to one counter. *)
Lemma exec_all_adds h incs r c :
  counters r !! count_key h = Some c →
  exec_all (adds h incs) r
  = Some {| timers := timers r;
            counters := <[count_key h := count_token_adds incs c]> (counters r);
            gauges := gauges r |}.
Proof.
  revert r c. induction incs as [|[now k] incs IH]; intros r c Hc; simpl.
  - by rewrite insert_id, registry_eta.
  - rewrite (update_count_Some _ _ _ _ Hc). simpl.
    erewrite IH by apply lookup_insert_eq. simpl.
    by rewrite insert_insert_eq.
Qed.

(** Setting one gauge. *)
Lemma exec_all_sets h vals r g :
  gauges r !! gauge_key h = Some g →
  exec_all (sets h vals) r
  = Some {| timers := timers r; counters := counters r;
            gauges := <[gauge_key h := gauge_token_sets vals g]> (gauges r) |}.
Proof.
  revert r g. induction vals as [|[now val] vals IH]; intros r g Hg; simpl.
  - by rewrite insert_id, registry_eta.
  - rewrite (update_gauge_Some _ _ _ _ Hg). simpl.
    erewrite IH by apply lookup_insert_eq. simpl.
    by rewrite insert_insert_eq.
Qed.

(** *** Stores only grow *)

Lemma extends_refl r : extends r r.
Proof. split; intros k x H; exists x; by split. Qed.

Lemma extends_trans r1 r2 r3 : extends r1 r2 → extends r2 r3 → extends r1 r3.
Proof.
  intros [T1 C1 G1] [T2 C2 G2]. split; intros k x H.
  - destruct (T1 _ _ H) as (x' & H' & P'). destruct (T2 _ _ H') as (x'' & H'' & P'').
    exists x''. split; [done | by etrans].
  - destruct (C1 _ _ H) as (x' & H' & P'). destruct (C2 _ _ H') as (x'' & H'' & P'').
    exists x''. split; [done | by etrans].
  - destruct (G1 _ _ H) as (x' & H' & P'). destruct (G2 _ _ H') as (x'' & H'' & P'').
    exists x''. split; [done | by etrans].
Qed.

(** Replacing the token at [key] by one whose store extends it. *)
Lemma insert_grows {T A} (store : T → list A) (m : gmap string T) key x x' :
  m !! key = Some x → store x `prefix_of` store x' →
  ∀ k y, m !! k = Some y →
    ∃ y', <[key := x']> m !! k = Some y' ∧ store y `prefix_of` store y'.
Proof.
  intros Hx Hp k y Hy. destruct (decide (key = k)) as [->|Hne].
  - rewrite lookup_insert_eq. exists x'. split; [done|]. congruence.
  - rewrite lookup_insert_ne by done. by exists y.
Qed.

Lemma emplace_grows {T A} (store : T → list A) (m : gmap string T) name fresh :
  ∀ k y, m !! k = Some y →
    ∃ y', emplace name fresh m !! k = Some y' ∧ store y `prefix_of` store y'.
Proof. intros k y Hy. exists y. split; [by apply emplace_keeps | done]. Qed.

Lemma same_grows {T A} (store : T → list A) (m : gmap string T) :
  ∀ k y, m !! k = Some y →
    ∃ y', m !! k = Some y' ∧ store y `prefix_of` store y'.
Proof. intros k y Hy. by exists y. Qed.

Lemma exec_extends now o r r' res :
  exec now o r = Some (r', res) → extends r r'.
Proof.
  destruct o as [name|name|name|h|s|h many|h|h val|h val|h]; unfold exec.
  - rewrite run_returns. simpl. intros [= <- _].
    split; simpl; auto using same_grows, emplace_grows.
  - rewrite count_returns. simpl. intros [= <- _].
    split; simpl; auto using same_grows, emplace_grows.
  - rewrite gauge_returns. simpl. intros [= <- _].
    split; simpl; auto using same_grows, emplace_grows.
  - destruct (timers r !! time_key h); simpl; [|done].
    intros [= <- _]. apply extends_refl.
  - unfold stop, update_time.
    destruct (timers r !! time_key (time_tok s)) as [t|] eqn:Ht; simpl; [|done].
    intros [= <- _]. split; simpl; auto using same_grows.
    apply (insert_grows durations _ _ t); [done|]. apply emplace_back_prefix.
  - unfold update_count.
    destruct (counters r !! count_key h) as [c|] eqn:Hc; simpl; [|done].
    intros [= <- _]. split; simpl; auto using same_grows.
    apply (insert_grows counts _ _ c); [done|]. apply emplace_back_prefix.
  - unfold update_count.
    destruct (counters r !! count_key h) as [c|] eqn:Hc; simpl; [|done].
    intros [= <- _]. split; simpl; auto using same_grows.
    apply (insert_grows counts _ _ c); [done|]. apply emplace_back_prefix.
  - unfold update_gauge.
    destruct (gauges r !! gauge_key h) as [g|] eqn:Hg; simpl; [|done].
    intros [= <- _]. split; simpl; auto using same_grows.
    apply (insert_grows readings _ _ g); [done|]. apply emplace_back_prefix.
  - unfold update_gauge.
    destruct (gauges r !! gauge_key h) as [g|] eqn:Hg; simpl; [|done].
    intros [= <- _]. split; simpl; auto using same_grows.
    apply (insert_grows readings _ _ g); [done|]. apply emplace_back_prefix.
  - destruct (gauges r !! gauge_key h) as [g|]; simpl; [|done].
    destruct (gauge_token_cast g); simpl; [|done].
    intros [= <- _]. apply extends_refl.
Qed.

(** *** Reachable registries *)

Lemma emplace_Forall {T} (P : string → T → Prop) name fresh (m : gmap string T) :
  P name fresh → map_Forall P m → map_Forall P (emplace name fresh m).
Proof.
  intros Hf Hm. unfold emplace. destruct (m !! name); [done|].
  by apply map_Forall_insert_2.
Qed.

Lemma time_token_new_ok : time_ok time_token_new.
Proof. by unfold time_ok. Qed.

Lemma count_token_new_ok : count_ok count_token_new.
Proof. split; [done|]. simpl. pose proof count_modulus_pos. lia. Qed.

Lemma gauge_token_new_ok : gauge_ok gauge_token_new.
Proof. apply gauge_rec_new. Qed.

Lemma time_token_report_ok start now t :
  time_ok t → time_ok (time_token_report start now t).
Proof. unfold time_ok. simpl. intros H. by apply prefix_app_r. Qed.

Lemma count_token_add_ok now many c :
  count_ok c → count_ok (count_token_add now many c).
Proof.
  intros [H _]. split; simpl.
  - by apply prefix_app_r.
  - apply wrap_count_range.
Qed.

Lemma gauge_token_set_ok now val g :
  gauge_ok g → gauge_ok (gauge_token_set now val g).
Proof. apply gauge_rec_set. Qed.

Lemma gauge_recorded_prefix g :
  gauge_recorded g → readings gauge_token_new `prefix_of` readings g.
Proof.
  induction 1 as [|now val g _ IH|now val g _ IH]; [done| |];
    by apply prefix_app_r.
Qed.

Lemma create_ok : registry_ok create.
Proof. split; apply map_Forall_empty. Qed.

Lemma exec_ok now o r r' res :
  registry_ok r → exec now o r = Some (r', res) → registry_ok r'.
Proof.
  intros [Ht Hc Hg].
  destruct o as [name|name|name|h|s|h many|h|h val|h val|h]; unfold exec.
  - rewrite run_returns. simpl. intros [= <- _]. split; simpl; try done.
    apply emplace_Forall; [apply time_token_new_ok | done].
  - rewrite count_returns. simpl. intros [= <- _]. split; simpl; try done.
    apply emplace_Forall; [apply count_token_new_ok | done].
  - rewrite gauge_returns. simpl. intros [= <- _]. split; simpl; try done.
    apply emplace_Forall; [apply gauge_token_new_ok | done].
  - destruct (timers r !! time_key h); simpl; [|done].
    by intros [= <- _].
  - unfold stop, update_time.
    destruct (timers r !! time_key (time_tok s)) as [t|] eqn:E; simpl; [|done].
    intros [= <- _]. split; simpl; try done.
    apply map_Forall_insert_2; [|done].
    apply time_token_report_ok, (Ht _ _ E).
  - unfold update_count.
    destruct (counters r !! count_key h) as [c|] eqn:E; simpl; [|done].
    intros [= <- _]. split; simpl; try done.
    apply map_Forall_insert_2; [|done].
    apply count_token_add_ok, (Hc _ _ E).
  - unfold update_count.
    destruct (counters r !! count_key h) as [c|] eqn:E; simpl; [|done].
    intros [= <- _]. split; simpl; try done.
    apply map_Forall_insert_2; [|done].
    apply count_token_add_ok, (Hc _ _ E).
  - unfold update_gauge.
    destruct (gauges r !! gauge_key h) as [g|] eqn:E; simpl; [|done].
    intros [= <- _]. split; simpl; try done.
    apply map_Forall_insert_2; [|done].
    apply gauge_token_set_ok, (Hg _ _ E).
  - unfold update_gauge.
    destruct (gauges r !! gauge_key h) as [g|] eqn:E; simpl; [|done].
    intros [= <- _]. split; simpl; try done.
    apply map_Forall_insert_2; [|done].
    apply gauge_token_set_ok, (Hg _ _ E).
  - destruct (gauges r !! gauge_key h) as [g|]; simpl; [|done].
    destruct (gauge_token_cast g); simpl; [|done].
    by intros [= <- _].
Qed.

Lemma reachable_ok r : reachable r → registry_ok r.
Proof. induction 1; [apply create_ok | by eapply exec_ok]. Qed.

Lemma exec_all_reachable tr r r' :
  reachable r → exec_all tr r = Some r' → reachable r'.
Proof.
  revert r. induction tr as [|[now o] tr IH]; intros r Hr; simpl.
  - by intros [= <-].
  - destruct (exec now o r) as [[r1 res]|] eqn:E; [|done].
    apply IH. by eapply reach_exec.
Qed.

Lemma exec_all_extends tr r r' : exec_all tr r = Some r' → extends r r'.
Proof.
  revert r. induction tr as [|[now o] tr IH]; intros r; simpl.
  - intros [= <-]. apply extends_refl.
  - destruct (exec now o r) as [[r1 res]|] eqn:E; [|done].
    intros H. eapply extends_trans; [by eapply exec_extends | by apply IH].
Qed.

(** ** count_token: running totals *)

(** A run of [operator+=] through the reference that [registry::count]
    returns for a new name. *)
Lemma count_adds_fresh r name incs :
  counters r !! name = None →
  ∃ r1 h r2 c,
    count name r = (r1, Some h)
    ∧ exec_all (adds h incs) r1 = Some r2
    ∧ counters r2 !! count_key h = Some c
    ∧ current c = wrap_count (total incs.*2)
    ∧ counts c = counts count_token_new ++ count_samples 0 incs.
Proof.
  intros Hfresh. rewrite count_returns.
  eexists _, (mk_count_ref name), _, (count_token_adds incs count_token_new).
  split; [reflexivity|].
  assert (emplace name count_token_new (counters r) !! name
          = Some count_token_new) as Hnew.
  { by rewrite emplace_lookup, Hfresh. }
  split; [by apply exec_all_adds|].
  split; [simpl; apply lookup_insert_eq|].
  destruct (count_token_adds_spec incs count_token_new) as [Hcur Hcounts].
  { simpl. pose proof count_modulus_pos. lia. }
  by rewrite Hcur, Hcounts.
Qed.

Lemma count_samples_exact incs i now k :
  Forall (λ k, 0 ≤ k) incs.*2 → total incs.*2 < count_modulus →
  incs !! i = Some (now, k) →
  count_samples 0 incs !! i = Some (now, total (take (S i) incs.*2)).
Proof.
  intros Hpos Hsum Hi. rewrite (count_samples_lookup _ _ _ _ _ Hi).
  pose proof (total_take_le incs.*2 (S i) Hpos).
  rewrite Z.add_0_l. do 2 f_equal. apply wrap_count_small.
  split; [apply H | eapply Z.le_lt_trans; [apply H | apply Hsum]].
Qed.

(** C1, as the code has it.  On a counter newly obtained from the registry,
    after any sequence of [operator+=] calls the running total is the sum of
    the amounts as an [unsigned long], that is modulo 2^64, and the store is
    the initial store followed by one sample per call, in call order, the
    [i]-th holding the clock reading of its call and the sum of the first
    [i] amounts modulo 2^64.  Whenever the sum of all amounts is below 2^64,
    the running total and every recorded total are these sums themselves. *)
Theorem count_add_running_totals
    (r : registry) (name : string) (incs : list (time_point * count_type)) :
  counters r !! name = None →
  ∃ r1 h r2 c,
    count name r = (r1, Some h)
    ∧ exec_all (adds h incs) r1 = Some r2
    ∧ counters r2 !! count_key h = Some c
    ∧ current c = wrap_count (total incs.*2)
    ∧ counts c = counts count_token_new ++ count_samples 0 incs
    ∧ length (count_samples 0 incs) = length incs
    ∧ (∀ i now k, incs !! i = Some (now, k) →
         count_samples 0 incs !! i
         = Some (now, wrap_count (total (take (S i) incs.*2))))
    ∧ (Forall (λ k, 0 ≤ k) incs.*2 → total incs.*2 < count_modulus →
         current c = total incs.*2
         ∧ ∀ i now k, incs !! i = Some (now, k) →
             count_samples 0 incs !! i
             = Some (now, total (take (S i) incs.*2))).
Proof.
  intros Hfresh.
  destruct (count_adds_fresh r name incs Hfresh)
    as (r1 & h & r2 & c & Hcount & Hrun & Hc & Hcur & Hcounts).
  exists r1, h, r2, c. split_and!; try done.
  - apply count_samples_length.
  - intros i now k Hi. by rewrite (count_samples_lookup 0 incs i now k Hi).
  - intros Hpos Hsum. split.
    + rewrite Hcur. apply wrap_count_small.
      split; [by apply total_nonneg | done].
    + intros i now k Hi. by apply (count_samples_exact incs i now k).
Qed.

(** The two increments of [main], [count_t++] and [count_t += 100], at the
    clock readings 1 and 2. *)
Lemma count_add_running_totals_main :
  ∃ r1 h r2 c,
    count "completed" create = (r1, Some h)
    ∧ exec_all (adds h [(1, 1); (2, 100)]) r1 = Some r2
    ∧ counters r2 !! count_key h = Some c
    ∧ current c = wrap_count (total [(1, 1); (2, 100)].*2)
    ∧ counts c = counts count_token_new ++ count_samples 0 [(1, 1); (2, 100)]
    ∧ length (count_samples 0 [(1, 1); (2, 100)]) = length [(1, 1); (2, 100)]
    ∧ (∀ i now k, [(1, 1); (2, 100)] !! i = Some (now, k) →
         count_samples 0 [(1, 1); (2, 100)] !! i
         = Some (now, wrap_count (total (take (S i) [(1, 1); (2, 100)].*2))))
    ∧ (Forall (λ k, 0 ≤ k) [(1, 1); (2, 100)].*2 →
       total [(1, 1); (2, 100)].*2 < count_modulus →
         current c = total [(1, 1); (2, 100)].*2
         ∧ ∀ i now k, [(1, 1); (2, 100)] !! i = Some (now, k) →
             count_samples 0 [(1, 1); (2, 100)] !! i
             = Some (now, total (take (S i) [(1, 1); (2, 100)].*2))).
Proof.
  apply (count_add_running_totals create "completed" [(1, 1); (2, 100)]).
  reflexivity.
Defined.

(** C1 as stated fails when the amounts add up to 2^64 or more: after
    [+= 2^64 - 1] and [+= 1] on a new counter the running total is 0, and
    so is the total of the second sample, while the amounts sum to 2^64. *)
Lemma count_total_wraps :
  ∃ r1 h r2 c,
    count "completed" create = (r1, Some h)
    ∧ exec_all (adds h [(1, 18446744073709551615); (2, 1)]) r1 = Some r2
    ∧ counters r2 !! count_key h = Some c
    ∧ current c = 0
    ∧ counts c = counts count_token_new
                 ++ [(1, 18446744073709551615); (2, 0)]
    ∧ total [18446744073709551615; 1] = 18446744073709551616
    ∧ current c ≠ total [18446744073709551615; 1].
Proof.
  destruct (count_adds_fresh create "completed"
              [(1, 18446744073709551615); (2, 1)])
    as (r1 & h & r2 & c & Hcount & Hrun & Hc & Hcur & Hcounts);
    [reflexivity|].
  exists r1, h, r2, c. repeat split; try done.
  - rewrite Hcur. discriminate.
Qed.

(** ** time_token: stopping a stopper several times *)

Lemma elapsed_dur_samples_lookup start nows i :
  elapsed (dur_samples start nows) !! i = (λ now, now - start) <$> nows !! i.
Proof.
  unfold elapsed, dur_samples. rewrite <- list_fmap_compose.
  by rewrite list_lookup_fmap.
Qed.

Lemma dur_samples_length start nows :
  length (dur_samples start nows) = length nows.
Proof. unfold dur_samples. apply length_fmap. Qed.

Lemma elapsed_nondecreasing start nows :
  nondecreasing nows → nondecreasing (elapsed (dur_samples start nows)).
Proof.
  intros Hnows i a b. rewrite !elapsed_dur_samples_lookup.
  intros Ha Hb.
  apply fmap_Some in Ha as (x & Hx & ->).
  apply fmap_Some in Hb as (y & Hy & ->).
  pose proof (Hnows i x y Hx Hy). lia.
Qed.

(** Starting a stopper on an existing timer and stopping it at the clock
    readings [nows]. *)
Lemma start_then_stops r h t now0 nows :
  timers r !! time_key h = Some t →
  ∃ s r' t',
    exec now0 (op_start h) r = Some (r, ret_stopper s)
    ∧ start s = now0
    ∧ exec_all (stops s nows) r = Some r'
    ∧ timers r' !! time_key h = Some t'
    ∧ durations t' = durations t ++ dur_samples now0 nows.
Proof.
  intros Ht. exists (time_start now0 h). eexists _, _.
  split; [simpl; by rewrite Ht|].
  split; [done|].
  split; [by apply (exec_all_stops (time_start now0 h) nows r t)|].
  split; [simpl; apply lookup_insert_eq|].
  apply time_token_reports_spec.
Qed.

(** C3, as the code has it.  Stopping the stopper that one call of
    [operator()] returned, [N] times, appends exactly [N] samples to the
    store of its timer; the [i]-th holds the clock reading of the [i]-th
    stop and that reading minus the reading taken at the start.  The
    elapsed values never decrease from one stop to the next provided the
    readings of [system_clock] at the stops do not. *)
Theorem stop_appends_elapsed
    (r : registry) (h : time_ref) (t : time_token)
    (now0 : time_point) (nows : list time_point) :
  timers r !! time_key h = Some t →
  ∃ s r' t',
    exec now0 (op_start h) r = Some (r, ret_stopper s)
    ∧ exec_all (stops s nows) r = Some r'
    ∧ timers r' !! time_key h = Some t'
    ∧ durations t' = durations t ++ dur_samples now0 nows
    ∧ vec_size (durations t') = vec_size (durations t) + Z.of_nat (length nows)
    ∧ length (dur_samples now0 nows) = length nows
    ∧ (∀ i now, nows !! i = Some now →
         dur_samples now0 nows !! i = Some (now, now - now0))
    ∧ (nondecreasing nows → nondecreasing (elapsed (dur_samples now0 nows))).
Proof.
  intros Ht.
  destruct (start_then_stops r h t now0 nows Ht)
    as (s & r' & t' & Hstart & _ & Hrun & Ht' & Hdur).
  exists s, r', t'. split_and!; try done.
  - unfold vec_size. rewrite Hdur, length_app, dur_samples_length. lia.
  - apply dur_samples_length.
  - intros i now Hi. unfold dur_samples. by rewrite list_lookup_fmap, Hi.
  - apply elapsed_nondecreasing.
Qed.

Lemma run_new_lookup name r :
  timers r !! name = None →
  timers (run name r).1 !! name = Some time_token_new.
Proof. intros H. rewrite run_returns. simpl. by rewrite emplace_lookup, H. Qed.

Lemma count_new_lookup name r :
  counters r !! name = None →
  counters (count name r).1 !! name = Some count_token_new.
Proof. intros H. rewrite count_returns. simpl. by rewrite emplace_lookup, H. Qed.

Lemma gauge_new_lookup name r :
  gauges r !! name = None →
  gauges (gauge name r).1 !! name = Some gauge_token_new.
Proof. intros H. rewrite gauge_returns. simpl. by rewrite emplace_lookup, H. Qed.

(** The timer of [main], started at 5 and stopped at 7, 7 and 12. *)
Lemma stop_appends_elapsed_main :
  ∃ s r' t',
    exec 5 (op_start (mk_time_ref "query")) (run "query" create).1
    = Some ((run "query" create).1, ret_stopper s)
    ∧ exec_all (stops s [7; 7; 12]) (run "query" create).1 = Some r'
    ∧ timers r' !! "query" = Some t'
    ∧ durations t' = durations time_token_new ++ dur_samples 5 [7; 7; 12]
    ∧ vec_size (durations t')
      = vec_size (durations time_token_new) + Z.of_nat (length [7; 7; 12])
    ∧ length (dur_samples 5 [7; 7; 12]) = length [7; 7; 12]
    ∧ (∀ i now, [7; 7; 12] !! i = Some now →
         dur_samples 5 [7; 7; 12] !! i = Some (now, now - 5))
    ∧ (nondecreasing [7; 7; 12] →
       nondecreasing (elapsed (dur_samples 5 [7; 7; 12]))).
Proof.
  apply (stop_appends_elapsed (run "query" create).1 (mk_time_ref "query")
           time_token_new 5 [7; 7; 12]).
  apply run_new_lookup. reflexivity.
Defined.

(** C3 as stated fails when [system_clock] is set back between two stops:
    with the start at 0 and the stops at the readings 20 and 10, the two
    appended samples have the elapsed values 20 and 10. *)
Lemma stop_elapsed_decreases :
  ∃ r1 h s r2 t2,
    run "query" create = (r1, Some h)
    ∧ exec 0 (op_start h) r1 = Some (r1, ret_stopper s)
    ∧ exec_all (stops s [20; 10]) r1 = Some r2
    ∧ timers r2 !! time_key h = Some t2
    ∧ durations t2 = durations time_token_new ++ [(20, 20); (10, 10)]
    ∧ ¬ nondecreasing (elapsed [(20, 20); (10, 10)]).
Proof.
  destruct (start_then_stops (run "query" create).1 (mk_time_ref "query")
              time_token_new 0 [20; 10])
    as (s & r2 & t2 & Hstart & _ & Hrun & Ht2 & Hdur).
  { apply run_new_lookup. reflexivity. }
  exists (run "query" create).1, (mk_time_ref "query"), s, r2, t2.
  split_and!.
  - by rewrite run_returns.
  - exact Hstart.
  - exact Hrun.
  - exact Ht2.
  - exact Hdur.
  - intros H. specialize (H 0%nat 20 10 eq_refl eq_refl). lia.
Qed.

(** ** The initial contents of a store *)

Lemma vector_n_lookup {A} n (d : A) i :
  0 ≤ i < n → vector_n n d !! Z.to_nat i = Some d.
Proof. intros Hi. unfold vector_n. apply lookup_replicate_2. lia. Qed.

Lemma vector_n_elem {A} n (d x : A) i : vector_n n d !! i = Some x → x = d.
Proof. unfold vector_n. intros H. by apply lookup_replicate in H as [-> _]. Qed.

Lemma time_token_new_size : vec_size (durations time_token_new) = 10000000.
Proof. simpl. by rewrite vector_n_size. Qed.

Lemma count_token_new_size : vec_size (counts count_token_new) = 10000000.
Proof. simpl. by rewrite vector_n_size. Qed.

Lemma gauge_token_new_size : vec_size (readings gauge_token_new) = 10000000.
Proof. simpl. by rewrite vector_n_size. Qed.

Lemma vec_size_app {A} (v w : list A) :
  vec_size (v ++ w) = vec_size v + Z.of_nat (length w).
Proof. unfold vec_size. rewrite length_app. lia. Qed.

(** C4 on the code: the stores of a new counter and of a new timer are not
    empty, so after 100 calls of [operator+=(1)] on a counter newly obtained
    from the registry the running total is 100 but the store holds
    10,000,100 samples, and after one start and one stop on a newly obtained
    timer the store holds 10,000,001 samples; in both the recorded samples
    come after 10,000,000 value-initialised ones.  [clock] gives the clock
    reading of each call. *)
Theorem store_size_after_recording (clock : nat → time_point) :
  (∃ r1 h r2 c,
     count "n" create = (r1, Some h)
     ∧ exec_all (adds h ((λ i, (clock i, 1)) <$> seq 0 100)) r1 = Some r2
     ∧ counters r2 !! count_key h = Some c
     ∧ current c = 100
     ∧ vec_size (counts c) = 10000100
     ∧ vec_size (counts c) ≠ 100
     ∧ counts c !! 0%nat = Some (epoch, 0))
  ∧ (∃ r1 h s r2 t,
       run "q" create = (r1, Some h)
       ∧ exec (clock 0%nat) (op_start h) r1 = Some (r1, ret_stopper s)
       ∧ exec_all (stops s [clock 1%nat]) r1 = Some r2
       ∧ timers r2 !! time_key h = Some t
       ∧ vec_size (durations t) = 10000001
       ∧ vec_size (durations t) ≠ 1
       ∧ durations t !! 0%nat = Some (epoch, 0)).
Proof.
  split.
  - destruct (count_adds_fresh create "n" ((λ i, (clock i, 1)) <$> seq 0 100))
      as (r1 & h & r2 & c & Hcount & Hrun & Hc & Hcur & Hcounts);
      [reflexivity|].
    assert (vec_size (counts c) = 10000100) as Hsize.
    { rewrite Hcounts, vec_size_app, count_token_new_size.
      rewrite count_samples_length, length_fmap, length_seq. lia. }
    exists r1, h, r2, c. split_and!.
    + exact Hcount.
    + exact Hrun.
    + exact Hc.
    + rewrite Hcur. reflexivity.
    + exact Hsize.
    + rewrite Hsize. discriminate.
    + rewrite Hcounts. rewrite lookup_app_l.
      * apply (vector_n_lookup prealloc (epoch, 0) 0). rewrite prealloc_eq. lia.
      * pose proof count_token_new_size as H. unfold vec_size in H. lia.
  - destruct (start_then_stops (run "q" create).1 (mk_time_ref "q")
                time_token_new (clock 0%nat) [clock 1%nat])
      as (s & r2 & t & Hstart & _ & Hrun & Ht & Hdur).
    { apply run_new_lookup. reflexivity. }
    assert (vec_size (durations t) = 10000001) as Hsize.
    { rewrite Hdur, vec_size_app, time_token_new_size. simpl. lia. }
    exists (run "q" create).1, (mk_time_ref "q"), s, r2, t.
    split_and!.
    + by rewrite run_returns.
    + exact Hstart.
    + exact Hrun.
    + exact Ht.
    + exact Hsize.
    + rewrite Hsize. discriminate.
    + rewrite Hdur. rewrite lookup_app_l.
      * apply (vector_n_lookup prealloc (epoch, 0) 0). rewrite prealloc_eq. lia.
      * pose proof time_token_new_size as H. unfold vec_size in H. lia.
Qed.

(** ** gauge_token: reading the current value *)

Lemma exec_cast now h r g val :
  gauges r !! gauge_key h = Some g → gauge_token_cast g = Some val →
  exec now (op_cast h) r = Some (r, ret_value val).
Proof. intros Hg Hval. unfold exec. rewrite Hg. simpl. by rewrite Hval. Qed.

Lemma sets_then_cast r h g vals now val now' :
  gauges r !! gauge_key h = Some g →
  ∃ r2,
    exec_all (sets h (vals ++ [(now, val)])) r = Some r2
    ∧ exec now' (op_cast h) r2 = Some (r2, ret_value val).
Proof.
  intros Hg. eexists. split; [by apply exec_all_sets|].
  eapply exec_cast; [cbn [gauges]; apply lookup_insert_eq|].
  pose proof (gauge_token_sets_spec (vals ++ [(now, val)]) g) as H.
  destruct (gauge_token_sets _ g) as [v]. cbn [readings] in H.
  rewrite H, app_assoc. apply gauge_token_cast_snoc.
Qed.

(** C5.  On a gauge newly obtained from the registry, the conversion to
    [gauged_type] returns zero before any [set], and after any sequence of
    [set] calls it returns the value of the last one; it returns in both
    cases. *)
Theorem gauge_cast_returns_last_set
    (r : registry) (name : string) (vals : list (time_point * gauged_type))
    (now : time_point) (val : gauged_type) (now' : time_point) :
  gauges r !! name = None →
  ∃ r1 h,
    gauge name r = (r1, Some h)
    ∧ exec now' (op_cast h) r1 = Some (r1, ret_value gauged_zero)
    ∧ ∃ r2,
        exec_all (sets h (vals ++ [(now, val)])) r1 = Some r2
        ∧ exec now' (op_cast h) r2 = Some (r2, ret_value val).
Proof.
  intros Hfresh. exists (gauge name r).1, (mk_gauge_ref name).
  pose proof (gauge_new_lookup name r Hfresh) as Hnew.
  split_and!.
  - by rewrite gauge_returns.
  - apply (exec_cast _ _ _ gauge_token_new); [exact Hnew|].
    apply gauge_token_new_cast.
  - by apply (sets_then_cast _ (mk_gauge_ref name) gauge_token_new).
Qed.

(** A gauge obtained as in [main], set to 100 and then to 5. *)
Lemma gauge_cast_returns_last_set_main :
  ∃ r1 h,
    gauge "threads" create = (r1, Some h)
    ∧ exec 3 (op_cast h) r1 = Some (r1, ret_value gauged_zero)
    ∧ ∃ r2,
        exec_all (sets h ([(1, S754_finite false 100 0)]
                          ++ [(2, S754_finite false 5 0)])) r1 = Some r2
        ∧ exec 3 (op_cast h) r2 = Some (r2, ret_value (S754_finite false 5 0)).
Proof.
  apply (gauge_cast_returns_last_set create "threads"
           [(1, S754_finite false 100 0)] 2 (S754_finite false 5 0) 3).
  reflexivity.
Defined.

(** ** registry: one recorder per name *)

Lemma run_twice name r :
  ∃ r1 h t1,
    run name r = (r1, Some h)
    ∧ run name r1 = (r1, Some h)
    ∧ timers r1 !! time_key h = Some t1
    ∧ (∀ k t, timers r !! k = Some t → timers r1 !! k = Some t)
    ∧ (∀ now0 now, ∃ r2,
         exec now (op_stop (time_start now0 h)) r1 = Some (r2, ret_void)
         ∧ run name r2 = (r2, Some h)
         ∧ timers r2 !! time_key h = Some (time_token_report now0 now t1))
    ∧ (∀ tr r2, exec_all tr r1 = Some r2 →
         run name r2 = (r2, Some h)
         ∧ ∃ t2, timers r2 !! time_key h = Some t2
                 ∧ durations t1 `prefix_of` durations t2).
Proof.
  set (r1 := {| timers := emplace name time_token_new (timers r); counters := counters r;
                gauges := gauges r |}).
  set (h := mk_time_ref name).
  assert (timers r1 !! time_key h = Some (default time_token_new (timers r !! name)))
    as Hl by apply emplace_lookup.
  assert (∀ r2 t2, timers r2 !! name = Some t2 → run name r2 = (r2, Some h))
    as Hagain.
  { intros r2 t2 H2. rewrite run_returns.
    by rewrite (emplace_present _ _ _ _ H2), registry_eta. }
  exists r1, h, (default time_token_new (timers r !! name)). split_and!.
  - apply run_returns.
  - by apply (Hagain _ _ Hl).
  - exact Hl.
  - intros k t. apply emplace_keeps.
  - intros now0 now.
    exists {| timers := <[name := time_token_report now0 now
                   (default time_token_new (timers r !! name))]>
                (timers r1);
              counters := counters r1;
              gauges := gauges r1 |}.
    split_and!.
    + unfold exec, stop. by rewrite (update_time_Some _ _ _ _ Hl).
    + eapply Hagain. apply lookup_insert_eq.
    + apply lookup_insert_eq.
  - intros tr r2 Hrun. apply exec_all_extends in Hrun as [Ht _ _].
    destruct (Ht _ _ Hl) as (t2 & H2 & Hp). split; [|by exists t2].
    by apply (Hagain _ t2).
Qed.

Lemma count_twice name r :
  ∃ r1 h c1,
    count name r = (r1, Some h)
    ∧ count name r1 = (r1, Some h)
    ∧ counters r1 !! count_key h = Some c1
    ∧ (∀ k c, counters r !! k = Some c → counters r1 !! k = Some c)
    ∧ (∀ now many, ∃ r2,
         exec now (op_add h many) r1 = Some (r2, ret_count h)
         ∧ count name r2 = (r2, Some h)
         ∧ counters r2 !! count_key h = Some (count_token_add now many c1))
    ∧ (∀ tr r2, exec_all tr r1 = Some r2 →
         count name r2 = (r2, Some h)
         ∧ ∃ c2, counters r2 !! count_key h = Some c2
                 ∧ counts c1 `prefix_of` counts c2).
Proof.
  set (r1 := {| timers := timers r; counters := emplace name count_token_new (counters r);
                gauges := gauges r |}).
  set (h := mk_count_ref name).
  assert (counters r1 !! count_key h = Some (default count_token_new (counters r !! name)))
    as Hl by apply emplace_lookup.
  assert (∀ r2 c2, counters r2 !! name = Some c2 → count name r2 = (r2, Some h))
    as Hagain.
  { intros r2 c2 H2. rewrite count_returns.
    by rewrite (emplace_present _ _ _ _ H2), registry_eta. }
  exists r1, h, (default count_token_new (counters r !! name)). split_and!.
  - apply count_returns.
  - by apply (Hagain _ _ Hl).
  - exact Hl.
  - intros k c. apply emplace_keeps.
  - intros now many.
    exists {| timers := timers r1;
              counters := <[name := count_token_add now many
                   (default count_token_new (counters r !! name))]>
                (counters r1);
              gauges := gauges r1 |}.
    split_and!.
    + unfold exec. by rewrite (update_count_Some _ _ _ _ Hl).
    + eapply Hagain. apply lookup_insert_eq.
    + apply lookup_insert_eq.
  - intros tr r2 Hrun. apply exec_all_extends in Hrun as [_ Hc _].
    destruct (Hc _ _ Hl) as (c2 & H2 & Hp). split; [|by exists c2].
    by apply (Hagain _ c2).
Qed.

Lemma gauge_twice name r :
  ∃ r1 h g1,
    gauge name r = (r1, Some h)
    ∧ gauge name r1 = (r1, Some h)
    ∧ gauges r1 !! gauge_key h = Some g1
    ∧ (∀ k g, gauges r !! k = Some g → gauges r1 !! k = Some g)
    ∧ (∀ now val, ∃ r2,
         exec now (op_set h val) r1 = Some (r2, ret_void)
         ∧ gauge name r2 = (r2, Some h)
         ∧ gauges r2 !! gauge_key h = Some (gauge_token_set now val g1)
         ∧ exec now (op_cast h) r2 = Some (r2, ret_value val))
    ∧ (∀ tr r2, exec_all tr r1 = Some r2 →
         gauge name r2 = (r2, Some h)
         ∧ ∃ g2, gauges r2 !! gauge_key h = Some g2
                 ∧ readings g1 `prefix_of` readings g2).
Proof.
  set (r1 := {| timers := timers r; counters := counters r;
                gauges := emplace name gauge_token_new (gauges r) |}).
  set (h := mk_gauge_ref name).
  assert (gauges r1 !! gauge_key h = Some (default gauge_token_new (gauges r !! name)))
    as Hl by apply emplace_lookup.
  assert (∀ r2 g2, gauges r2 !! name = Some g2 → gauge name r2 = (r2, Some h))
    as Hagain.
  { intros r2 g2 H2. rewrite gauge_returns.
    by rewrite (emplace_present _ _ _ _ H2), registry_eta. }
  exists r1, h, (default gauge_token_new (gauges r !! name)). split_and!.
  - apply gauge_returns.
  - by apply (Hagain _ _ Hl).
  - exact Hl.
  - intros k g. apply emplace_keeps.
  - intros now val.
    exists {| timers := timers r1;
              counters := counters r1;
              gauges := <[name := gauge_token_set now val
                   (default gauge_token_new (gauges r !! name))]>
                (gauges r1) |}.
    split_and!.
    + unfold exec. by rewrite (update_gauge_Some _ _ _ _ Hl).
    + eapply Hagain. apply lookup_insert_eq.
    + apply lookup_insert_eq.
    + eapply exec_cast; [apply lookup_insert_eq|].
      apply gauge_token_cast_snoc.
  - intros tr r2 Hrun. apply exec_all_extends in Hrun as [_ _ Hg].
    destruct (Hg _ _ Hl) as (g2 & H2 & Hp). split; [|by exists g2].
    by apply (Hagain _ g2).
Qed.

(** C2.  For every name and each of [run], [count] and [gauge]: the call
    returns a reference [h] and a registry [r1] that keeps every entry of
    the registry it was called on; calling it again with the same name
    returns the same reference and leaves the registry as it is, at once
    and after any run of operations in between, during which the token
    behind [h] only gains samples; and a sample recorded through [h] is in
    the token that the reference of the second call denotes. *)
Theorem obtain_twice_same_recorder (name : string) (r : registry) :
  (∃ r1 h t1,
     run name r = (r1, Some h)
     ∧ run name r1 = (r1, Some h)
     ∧ timers r1 !! time_key h = Some t1
     ∧ (∀ k t, timers r !! k = Some t → timers r1 !! k = Some t)
     ∧ (∀ now0 now, ∃ r2,
          exec now (op_stop (time_start now0 h)) r1 = Some (r2, ret_void)
          ∧ run name r2 = (r2, Some h)
          ∧ timers r2 !! time_key h = Some (time_token_report now0 now t1))
     ∧ (∀ tr r2, exec_all tr r1 = Some r2 →
          run name r2 = (r2, Some h)
          ∧ ∃ t2, timers r2 !! time_key h = Some t2
                  ∧ durations t1 `prefix_of` durations t2))
  ∧ (∃ r1 h c1,
       count name r = (r1, Some h)
       ∧ count name r1 = (r1, Some h)
       ∧ counters r1 !! count_key h = Some c1
       ∧ (∀ k c, counters r !! k = Some c → counters r1 !! k = Some c)
       ∧ (∀ now many, ∃ r2,
            exec now (op_add h many) r1 = Some (r2, ret_count h)
            ∧ count name r2 = (r2, Some h)
            ∧ counters r2 !! count_key h = Some (count_token_add now many c1))
       ∧ (∀ tr r2, exec_all tr r1 = Some r2 →
            count name r2 = (r2, Some h)
            ∧ ∃ c2, counters r2 !! count_key h = Some c2
                    ∧ counts c1 `prefix_of` counts c2))
  ∧ (∃ r1 h g1,
       gauge name r = (r1, Some h)
       ∧ gauge name r1 = (r1, Some h)
       ∧ gauges r1 !! gauge_key h = Some g1
       ∧ (∀ k g, gauges r !! k = Some g → gauges r1 !! k = Some g)
       ∧ (∀ now val, ∃ r2,
            exec now (op_set h val) r1 = Some (r2, ret_void)
            ∧ gauge name r2 = (r2, Some h)
            ∧ gauges r2 !! gauge_key h = Some (gauge_token_set now val g1)
            ∧ exec now (op_cast h) r2 = Some (r2, ret_value val))
       ∧ (∀ tr r2, exec_all tr r1 = Some r2 →
            gauge name r2 = (r2, Some h)
            ∧ ∃ g2, gauges r2 !! gauge_key h = Some g2
                    ∧ readings g1 `prefix_of` readings g2)).
Proof.
  split_and!; [apply run_twice | apply count_twice | apply gauge_twice].
Qed.

(** ** Stores are append-only *)

(** C6.  Whatever operation runs, every token that was in the registry is
    still there afterwards under the same name, and the store it had before
    is a prefix of the store it has now. *)
Theorem stores_append_only
    (now : time_point) (o : op) (r r' : registry) (res : result) :
  exec now o r = Some (r', res) → extends r r'.
Proof. apply exec_extends. Qed.

(** What [gauge_tok.set(100)] does to the registry of [main]. *)
Lemma stores_append_only_main :
  extends (gauge "threads" create).1
    {| timers := timers (gauge "threads" create).1;
       counters := counters (gauge "threads" create).1;
       gauges := <["threads" := gauge_token_set 1 (S754_finite false 100 0)
                                  gauge_token_new]>
                   (gauges (gauge "threads" create).1) |}.
Proof.
  apply (stores_append_only 1
           (op_set (mk_gauge_ref "threads") (S754_finite false 100 0))
           (gauge "threads" create).1 _ ret_void).
  unfold exec.
  rewrite (update_gauge_Some (mk_gauge_ref "threads") _ _ gauge_token_new).
  - reflexivity.
  - apply gauge_new_lookup. reflexivity.
Defined.

(** ** Operations always return *)

Lemma gauge_token_cast_total g : is_Some (gauge_token_cast g).
Proof.
  unfold gauge_token_cast, gauge_cast_branch.
  destruct (vec_empty (readings g)) eqn:E; [by eexists|].
  apply vec_empty_false_iff, last_is_Some in E.
  destruct E as [x Hx]. unfold back. rewrite Hx. by eexists.
Qed.

Lemma exec_total now o r :
  refs_valid o r → ∃ r' res, exec now o r = Some (r', res).
Proof.
  destruct o as [name|name|name|h|s|h many|h|h val|h val|h];
    unfold refs_valid, exec.
  - intros _. rewrite run_returns. simpl. by eexists _, _.
  - intros _. rewrite count_returns. simpl. by eexists _, _.
  - intros _. rewrite gauge_returns. simpl. by eexists _, _.
  - intros [t ->]. simpl. by eexists _, _.
  - intros [t Ht]. unfold stop. rewrite (update_time_Some _ _ _ _ Ht).
    simpl. by eexists _, _.
  - intros [c Hc]. rewrite (update_count_Some _ _ _ _ Hc). simpl. by eexists _, _.
  - intros [c Hc]. rewrite (update_count_Some _ _ _ _ Hc). simpl. by eexists _, _.
  - intros [g Hg]. rewrite (update_gauge_Some _ _ _ _ Hg). simpl. by eexists _, _.
  - intros [g Hg]. rewrite (update_gauge_Some _ _ _ _ Hg). simpl. by eexists _, _.
  - intros [g ->]. simpl. destruct (gauge_token_cast_total g) as [val ->].
    simpl. by eexists _, _.
Qed.

(** A reference that has a node keeps it. *)
Lemma extends_refs_valid r r' o : extends r r' → refs_valid o r → refs_valid o r'.
Proof.
  intros [Ht Hc Hg].
  destruct o as [name|name|name|h|s|h many|h|h val|h val|h]; simpl; try done.
  - intros [t H]. destruct (Ht _ _ H) as (t' & -> & _). by eexists.
  - intros [t H]. destruct (Ht _ _ H) as (t' & -> & _). by eexists.
  - intros [c H]. destruct (Hc _ _ H) as (c' & -> & _). by eexists.
  - intros [c H]. destruct (Hc _ _ H) as (c' & -> & _). by eexists.
  - intros [g H]. destruct (Hg _ _ H) as (g' & -> & _). by eexists.
  - intros [g H]. destruct (Hg _ _ H) as (g' & -> & _). by eexists.
  - intros [g H]. destruct (Hg _ _ H) as (g' & -> & _). by eexists.
Qed.

(** C7.  In a registry that [create] and the operations lead to: every
    operation applied through references obtained from the registry returns,
    leaving a registry in which the same references can be used again;
    [operator+=(0)] appends a sample holding the unchanged running total;
    a stopper can be stopped any number of times; and reading a gauge that
    was just obtained under a new name returns zero. *)
Theorem operations_total (r : registry) :
  reachable r →
  (∀ now o, refs_valid o r →
     ∃ r' res, exec now o r = Some (r', res)
               ∧ reachable r' ∧ ∀ o', refs_valid o' r → refs_valid o' r')
  ∧ (∀ now h c, counters r !! count_key h = Some c →
       exec now (op_add h 0) r
       = Some ({| timers := timers r;
                  counters :=
                    <[count_key h := {| counts := counts c ++ [(now, current c)];
                                        current := current c |}]> (counters r);
                  gauges := gauges r |},
               ret_count h))
  ∧ (∀ s nows, refs_valid (op_stop s) r →
       ∃ r', exec_all (stops s nows) r = Some r')
  ∧ (∀ now name, gauges r !! name = None →
       ∃ r1 h, gauge name r = (r1, Some h)
               ∧ exec now (op_cast h) r1 = Some (r1, ret_value gauged_zero)).
Proof.
  intros Hr. split_and!.
  - intros now o Hvalid.
    destruct (exec_total now o r Hvalid) as (r' & res & Hexec).
    exists r', res. split_and!; [done | by eapply reach_exec |].
    intros o'. apply extends_refs_valid. by eapply exec_extends.
  - intros now h c Hc. unfold exec.
    rewrite (update_count_Some _ _ _ _ Hc). simpl.
    destruct (reachable_ok r Hr) as [_ Hcs _].
    destruct (Hcs _ _ Hc) as [_ Hrange].
    unfold count_token_add, atomic_add, emplace_back.
    rewrite Z.add_0_r, wrap_count_small by done. reflexivity.
  - intros s nows [t Ht]. eexists. by apply exec_all_stops.
  - intros now name Hfresh. exists (gauge name r).1, (mk_gauge_ref name).
    split; [by rewrite gauge_returns|].
    apply (exec_cast _ _ _ gauge_token_new); [by apply gauge_new_lookup|].
    apply gauge_token_new_cast.
Qed.

(** [count_t += 0] on the counter of [main], just obtained. *)
Lemma operations_total_main :
  ∃ r' res,
    exec 1 (op_add (mk_count_ref "completed") 0) (count "completed" create).1
    = Some (r', res)
    ∧ reachable r'
    ∧ ∀ o', refs_valid o' (count "completed" create).1 → refs_valid o' r'.
Proof.
  assert (exec 0 (op_count "completed") create
          = Some ((count "completed" create).1,
                  ret_count (mk_count_ref "completed"))) as Hexec.
  { unfold exec. by rewrite count_returns. }
  destruct (operations_total (count "completed" create).1
              (reach_exec _ _ _ _ _ reach_create Hexec)) as [Htotal _].
  apply Htotal. exists count_token_new.
  apply (count_new_lookup "completed" create). reflexivity.
Defined.

(** ** What a new token holds *)

Lemma reachable_stores r :
  reachable r →
  (∀ k t, timers r !! k = Some t →
     durations time_token_new `prefix_of` durations t)
  ∧ (∀ k c, counters r !! k = Some c →
       counts count_token_new `prefix_of` counts c)
  ∧ (∀ k g, gauges r !! k = Some g →
       readings gauge_token_new `prefix_of` readings g).
Proof.
  intros Hr. destruct (reachable_ok r Hr) as [Ht Hc Hg]. split_and!.
  - intros k t H. apply (Ht _ _ H).
  - intros k c H. apply (Hc _ _ H).
  - intros k g H. apply gauge_recorded_prefix, (Hg _ _ H).
Qed.

(** C9.  The store of a newly constructed token of each kind has
    10,000,000 elements, each of them the epoch paired with zero (and the
    running total of a new counter is zero); this is the token that [run],
    [count] and [gauge] put under a new name; and in every registry that
    [create] and the operations lead to, the store of every token is that
    initial store followed by the recorded samples. *)
Theorem new_store_holds_prealloc_entries :
  (vec_size (durations time_token_new) = 10000000
   ∧ ∀ i x, durations time_token_new !! i = Some x → x = (epoch, 0))
  ∧ (vec_size (counts count_token_new) = 10000000
     ∧ (∀ i x, counts count_token_new !! i = Some x → x = (epoch, 0))
     ∧ current count_token_new = 0)
  ∧ (vec_size (readings gauge_token_new) = 10000000
     ∧ ∀ i x, readings gauge_token_new !! i = Some x → x = (epoch, gauged_zero))
  ∧ (∀ name r, timers r !! name = None →
       timers (run name r).1 !! name = Some time_token_new)
  ∧ (∀ name r, counters r !! name = None →
       counters (count name r).1 !! name = Some count_token_new)
  ∧ (∀ name r, gauges r !! name = None →
       gauges (gauge name r).1 !! name = Some gauge_token_new)
  ∧ (∀ r, reachable r →
       (∀ k t, timers r !! k = Some t →
          durations time_token_new `prefix_of` durations t)
       ∧ (∀ k c, counters r !! k = Some c →
            counts count_token_new `prefix_of` counts c)
       ∧ (∀ k g, gauges r !! k = Some g →
            readings gauge_token_new `prefix_of` readings g)).
Proof.
  split_and!.
  - apply time_token_new_size.
  - intros i x. apply vector_n_elem.
  - apply count_token_new_size.
  - intros i x. apply vector_n_elem.
  - reflexivity.
  - apply gauge_token_new_size.
  - intros i x. apply vector_n_elem.
  - apply run_new_lookup.
  - apply count_new_lookup.
  - apply gauge_new_lookup.
  - apply reachable_stores.
Qed.

(** ** The empty-store arm of the gauge conversion *)

Lemma gauge_recorded_not_empty g :
  gauge_recorded g → vec_empty (readings g) = false.
Proof.
  intros [k Hk]%gauge_recorded_prefix. rewrite Hk.
  apply vec_empty_app. cbn [readings gauge_token_new].
  apply vector_n_not_empty, prealloc_pos.
Qed.

(** C10, as the code has it.  A gauge that has only been constructed by
    the registry and set (by [set] or [operator=]) has a store that begins
    with the 10,000,000 initial elements and is therefore not empty, so the
    conversion to [gauged_type] takes the arm that reads the last sample;
    on a new gauge that sample is the last initial element, whose value is
    zero. *)
Theorem gauge_recorded_reads_last_sample (g : gauge_token) :
  gauge_recorded g →
  readings gauge_token_new `prefix_of` readings g
  ∧ 10000000 ≤ vec_size (readings g)
  ∧ readings g ≠ []
  ∧ gauge_cast_branch g = last_sample
  ∧ gauge_token_cast g = snd <$> back (readings g)
  ∧ gauge_cast_branch gauge_token_new = last_sample
  ∧ back (readings gauge_token_new) = Some (epoch, gauged_zero)
  ∧ gauge_token_cast gauge_token_new = Some gauged_zero.
Proof.
  intros Hg.
  pose proof (gauge_recorded_prefix g Hg) as Hp.
  pose proof (gauge_recorded_not_empty g Hg) as He.
  pose proof (gauge_recorded_not_empty _ gauge_rec_new) as Hnew.
  split_and!.
  - exact Hp.
  - destruct Hp as [k ->]. rewrite vec_size_app, gauge_token_new_size. lia.
  - by apply vec_empty_false_iff.
  - unfold gauge_cast_branch. by rewrite He.
  - unfold gauge_token_cast, gauge_cast_branch. by rewrite He.
  - unfold gauge_cast_branch. by rewrite Hnew.
  - cbn [readings gauge_token_new]. apply vector_n_back, prealloc_pos.
  - apply gauge_token_new_cast.
Qed.

(** The gauge of [main] after [gauge_tok.set(100)]. *)
Lemma gauge_recorded_reads_last_sample_main :
  readings gauge_token_new
    `prefix_of` readings (gauge_token_set 1 (S754_finite false 100 0)
                            gauge_token_new)
  ∧ 10000000 ≤ vec_size (readings (gauge_token_set 1 (S754_finite false 100 0)
                                     gauge_token_new))
  ∧ readings (gauge_token_set 1 (S754_finite false 100 0) gauge_token_new) ≠ []
  ∧ gauge_cast_branch (gauge_token_set 1 (S754_finite false 100 0)
                         gauge_token_new) = last_sample
  ∧ gauge_token_cast (gauge_token_set 1 (S754_finite false 100 0)
                        gauge_token_new)
    = snd <$> back (readings (gauge_token_set 1 (S754_finite false 100 0)
                                gauge_token_new))
  ∧ gauge_cast_branch gauge_token_new = last_sample
  ∧ back (readings gauge_token_new) = Some (epoch, gauged_zero)
  ∧ gauge_token_cast gauge_token_new = Some gauged_zero.
Proof.
  apply (gauge_recorded_reads_last_sample
           (gauge_token_set 1 (S754_finite false 100 0) gauge_token_new)).
  apply gauge_rec_set, gauge_rec_new.
Defined.

(** C10 as stated fails on a gauge that has been moved from: the move
    constructor takes the whole store, the gauge it was taken from is left
    with an empty one, and its conversion takes the empty-store arm. *)
Lemma moved_from_gauge_is_empty :
  gauge_reachable (gauge_token_move gauge_token_new).2
  ∧ readings (gauge_token_move gauge_token_new).2 = []
  ∧ gauge_cast_branch (gauge_token_move gauge_token_new).2 = empty_store
  ∧ gauge_token_cast (gauge_token_move gauge_token_new).2 = Some gauged_zero.
Proof.
  split_and!.
  - apply gauge_reach_moved_from, gauge_reach_new.
  - reflexivity.
  - reflexivity.
  - reflexivity.
Qed.

(** * Further properties *)

(** ** What an operation writes *)

(** The maps of the registry after one operation. *)
Lemma exec_timers now o r r' res :
  exec now o r = Some (r', res) →
  timers r' = timers r
  ∨ (∃ name, o = op_run name
             ∧ timers r' = emplace name time_token_new (timers r))
  ∨ (∃ s t, o = op_stop s ∧ timers r !! time_key (time_tok s) = Some t
            ∧ timers r' = <[time_key (time_tok s) :=
                              time_token_report (start s) now t]> (timers r)).
Proof.
  destruct o as [name|name|name|h|s|h many|h|h val|h val|h]; unfold exec.
  - rewrite run_returns. simpl. intros [= <- _]. right. left. by eexists.
  - rewrite count_returns. simpl. intros [= <- _]. by left.
  - rewrite gauge_returns. simpl. intros [= <- _]. by left.
  - destruct (timers r !! time_key h); simpl; [|done].
    intros [= <- _]. by left.
  - unfold stop, update_time.
    destruct (timers r !! time_key (time_tok s)) as [t|] eqn:E; simpl; [|done].
    intros [= <- _]. right. right. by eexists _, _.
  - unfold update_count. destruct (counters r !! count_key h); simpl; [|done].
    intros [= <- _]. by left.
  - unfold update_count. destruct (counters r !! count_key h); simpl; [|done].
    intros [= <- _]. by left.
  - unfold update_gauge. destruct (gauges r !! gauge_key h); simpl; [|done].
    intros [= <- _]. by left.
  - unfold update_gauge. destruct (gauges r !! gauge_key h); simpl; [|done].
    intros [= <- _]. by left.
  - destruct (gauges r !! gauge_key h) as [g|]; simpl; [|done].
    destruct (gauge_token_cast g); simpl; [|done].
    intros [= <- _]. by left.
Qed.

Lemma exec_counters now o r r' res :
  exec now o r = Some (r', res) →
  counters r' = counters r
  ∨ (∃ name, o = op_count name
             ∧ counters r' = emplace name count_token_new (counters r))
  ∨ (∃ h many c, (o = op_add h many ∨ (o = op_incr h ∧ many = 1))
                 ∧ counters r !! count_key h = Some c
                 ∧ counters r' = <[count_key h := count_token_add now many c]>
                                   (counters r)).
Proof.
  destruct o as [name|name|name|h|s|h many|h|h val|h val|h]; unfold exec.
  - rewrite run_returns. simpl. intros [= <- _]. by left.
  - rewrite count_returns. simpl. intros [= <- _]. right. left. by eexists.
  - rewrite gauge_returns. simpl. intros [= <- _]. by left.
  - destruct (timers r !! time_key h); simpl; [|done].
    intros [= <- _]. by left.
  - unfold stop, update_time.
    destruct (timers r !! time_key (time_tok s)); simpl; [|done].
    intros [= <- _]. by left.
  - unfold update_count.
    destruct (counters r !! count_key h) as [c|] eqn:E; simpl; [|done].
    intros [= <- _]. right. right. exists h, many, c. split_and!; by try left.
  - unfold update_count.
    destruct (counters r !! count_key h) as [c|] eqn:E; simpl; [|done].
    intros [= <- _]. right. right. exists h, 1, c. split_and!; by try right.
  - unfold update_gauge. destruct (gauges r !! gauge_key h); simpl; [|done].
    intros [= <- _]. by left.
  - unfold update_gauge. destruct (gauges r !! gauge_key h); simpl; [|done].
    intros [= <- _]. by left.
  - destruct (gauges r !! gauge_key h) as [g|]; simpl; [|done].
    destruct (gauge_token_cast g); simpl; [|done].
    intros [= <- _]. by left.
Qed.

Lemma exec_gauges now o r r' res :
  exec now o r = Some (r', res) →
  gauges r' = gauges r
  ∨ (∃ name, o = op_gauge name
             ∧ gauges r' = emplace name gauge_token_new (gauges r))
  ∨ (∃ h val g, (o = op_set h val ∨ o = op_assign h val)
                ∧ gauges r !! gauge_key h = Some g
                ∧ gauges r' = <[gauge_key h := gauge_token_set now val g]>
                                (gauges r)).
Proof.
  destruct o as [name|name|name|h|s|h many|h|h val|h val|h]; unfold exec.
  - rewrite run_returns. simpl. intros [= <- _]. by left.
  - rewrite count_returns. simpl. intros [= <- _]. by left.
  - rewrite gauge_returns. simpl. intros [= <- _]. right. left. by eexists.
  - destruct (timers r !! time_key h); simpl; [|done].
    intros [= <- _]. by left.
  - unfold stop, update_time.
    destruct (timers r !! time_key (time_tok s)); simpl; [|done].
    intros [= <- _]. by left.
  - unfold update_count. destruct (counters r !! count_key h); simpl; [|done].
    intros [= <- _]. by left.
  - unfold update_count. destruct (counters r !! count_key h); simpl; [|done].
    intros [= <- _]. by left.
  - unfold update_gauge.
    destruct (gauges r !! gauge_key h) as [g|] eqn:E; simpl; [|done].
    intros [= <- _]. right. right. exists h, val, g. split_and!; by try left.
  - unfold update_gauge.
    destruct (gauges r !! gauge_key h) as [g|] eqn:E; simpl; [|done].
    intros [= <- _]. right. right. exists h, val, g. split_and!; by try right.
  - destruct (gauges r !! gauge_key h) as [g|]; simpl; [|done].
    destruct (gauge_token_cast g); simpl; [|done].
    intros [= <- _]. by left.
Qed.

Lemma exec_reads_only now o r r' res :
  exec now o r = Some (r', res) → op_target o = None → r' = r.
Proof.
  destruct o as [name|name|name|h|s|h many|h|h val|h val|h]; simpl; try done.
  - destruct (timers r !! time_key h); simpl; [|done]. by intros [= <- _].
  - destruct (gauges r !! gauge_key h) as [g|]; simpl; [|done].
    destruct (gauge_token_cast g); simpl; [|done]. by intros [= <- _].
Qed.

(** X1.  An operation changes nothing but the token it is aimed at: every
    other name of the same kind and every name of the two other kinds has
    the same token, or no token, as before; starting a stopper and reading a
    gauge leave the whole registry as it is.  So a timer, a counter and a
    gauge may share a name without sharing anything else. *)
Theorem exec_writes_target_only
    (now : time_point) (o : op) (r r' : registry) (res : result) :
  exec now o r = Some (r', res) →
  (∀ n, op_target o ≠ Some (timer_kind, n) → timers r' !! n = timers r !! n)
  ∧ (∀ n, op_target o ≠ Some (counter_kind, n) →
       counters r' !! n = counters r !! n)
  ∧ (∀ n, op_target o ≠ Some (gauge_kind, n) → gauges r' !! n = gauges r !! n)
  ∧ (op_target o = None → r' = r).
Proof.
  intros Hexec. split_and!.
  - intros n Hn.
    destruct (exec_timers _ _ _ _ _ Hexec)
      as [->|[(name & -> & ->)|(s & t & -> & _ & ->)]]; [done| |].
    + apply emplace_other. intros ->. by apply Hn.
    + apply lookup_insert_ne. intros E. apply Hn. simpl. by rewrite E.
  - intros n Hn.
    destruct (exec_counters _ _ _ _ _ Hexec)
      as [->|[(name & -> & ->)|(h & many & c & Ho & _ & ->)]]; [done| |].
    + apply emplace_other. intros ->. by apply Hn.
    + apply lookup_insert_ne. intros E. apply Hn.
      destruct Ho as [->|[-> _]]; simpl; by rewrite E.
  - intros n Hn.
    destruct (exec_gauges _ _ _ _ _ Hexec)
      as [->|[(name & -> & ->)|(h & val & g & Ho & _ & ->)]]; [done| |].
    + apply emplace_other. intros ->. by apply Hn.
    + apply lookup_insert_ne. intros E. apply Hn.
      destruct Ho as [->| ->]; simpl; by rewrite E.
  - apply (exec_reads_only _ _ _ _ _ Hexec).
Qed.

(** [gauge_tok.set(100)] in a registry that holds the gauge ["threads"]. *)
Lemma exec_writes_target_only_main :
  (∀ n, op_target (op_set (mk_gauge_ref "threads") (gauged_of_int 100))
        ≠ Some (timer_kind, n) →
     timers {| timers := timers (gauge "threads" create).1;
               counters := counters (gauge "threads" create).1;
               gauges := <["threads" := gauge_token_set 1 (gauged_of_int 100)
                                          gauge_token_new]>
                           (gauges (gauge "threads" create).1) |} !! n
     = timers (gauge "threads" create).1 !! n)
  ∧ (∀ n, op_target (op_set (mk_gauge_ref "threads") (gauged_of_int 100))
          ≠ Some (counter_kind, n) →
       counters {| timers := timers (gauge "threads" create).1;
                   counters := counters (gauge "threads" create).1;
                   gauges := <["threads" := gauge_token_set 1 (gauged_of_int 100)
                                              gauge_token_new]>
                               (gauges (gauge "threads" create).1) |} !! n
       = counters (gauge "threads" create).1 !! n)
  ∧ (∀ n, op_target (op_set (mk_gauge_ref "threads") (gauged_of_int 100))
          ≠ Some (gauge_kind, n) →
       gauges {| timers := timers (gauge "threads" create).1;
                 counters := counters (gauge "threads" create).1;
                 gauges := <["threads" := gauge_token_set 1 (gauged_of_int 100)
                                            gauge_token_new]>
                             (gauges (gauge "threads" create).1) |} !! n
       = gauges (gauge "threads" create).1 !! n)
  ∧ (op_target (op_set (mk_gauge_ref "threads") (gauged_of_int 100)) = None →
     {| timers := timers (gauge "threads" create).1;
        counters := counters (gauge "threads" create).1;
        gauges := <["threads" := gauge_token_set 1 (gauged_of_int 100)
                                   gauge_token_new]>
                    (gauges (gauge "threads" create).1) |}
     = (gauge "threads" create).1).
Proof.
  apply (exec_writes_target_only 1
           (op_set (mk_gauge_ref "threads") (gauged_of_int 100))
           (gauge "threads" create).1 _ ret_void).
  unfold exec.
  rewrite (update_gauge_Some (mk_gauge_ref "threads") _ _ gauge_token_new).
  - reflexivity.
  - apply gauge_new_lookup. reflexivity.
Defined.

(** ** Lookups create each name once *)

Lemma asked_cons_same k name l : asked k ((k, name) :: l) = name :: asked k l.
Proof. unfold asked. rewrite filter_cons_True by done. reflexivity. Qed.

Lemma asked_cons_other k k' name l : k' ≠ k → asked k ((k', name) :: l) = asked k l.
Proof. intros H. unfold asked. by rewrite filter_cons_False. Qed.

(** The tokens of one kind after the lookups [l], given what a lookup does
    to the map of that kind. *)
Lemma emplace_then_asked {T} (fresh : T) name names (m m' : gmap string T) n :
  m' !! n = (if decide (n ∈ names)
             then Some (default fresh (emplace name fresh m !! n))
             else emplace name fresh m !! n) →
  m' !! n = (if decide (n ∈ name :: names)
             then Some (default fresh (m !! n))
             else m !! n).
Proof.
  intros ->. destruct (decide (n = name)) as [->|Hne].
  - rewrite emplace_lookup.
    destruct (decide (name ∈ name :: names)) as [_|Hn];
      [|exfalso; apply Hn, elem_of_cons; by left].
    by destruct (decide (name ∈ names)).
  - rewrite emplace_other by done.
    destruct (decide (n ∈ names)) as [H1|H1],
             (decide (n ∈ name :: names)) as [H2|H2]; try done.
    + exfalso. apply H2, elem_of_cons. by right.
    + apply elem_of_cons in H2 as [H2|H2]; done.
Qed.

Lemma exec_all_obtains l r :
  ∃ r',
    exec_all (obtains l) r = Some r'
    ∧ (∀ n, timers r' !! n
            = if decide (n ∈ asked timer_kind l)
              then Some (default time_token_new (timers r !! n))
              else timers r !! n)
    ∧ (∀ n, counters r' !! n
            = if decide (n ∈ asked counter_kind l)
              then Some (default count_token_new (counters r !! n))
              else counters r !! n)
    ∧ (∀ n, gauges r' !! n
            = if decide (n ∈ asked gauge_kind l)
              then Some (default gauge_token_new (gauges r !! n))
              else gauges r !! n).
Proof.
  revert r. induction l as [|[k name] l IH]; intros r.
  - exists r. split_and!; [done|..]; intros n; by rewrite decide_False by set_solver.
  - destruct k; cbn [obtains fmap list_fmap exec_all obtain]; unfold exec.
    + rewrite run_returns. cbn [mbind option_bind].
      destruct (IH {| timers := emplace name time_token_new (timers r);
                      counters := counters r; gauges := gauges r |})
        as (r' & Hrun & Ht & Hc & Hg).
      exists r'. split_and!; [exact Hrun|..]; intros n.
      * rewrite asked_cons_same. apply emplace_then_asked, Ht.
      * rewrite asked_cons_other by done. apply Hc.
      * rewrite asked_cons_other by done. apply Hg.
    + rewrite count_returns. cbn [mbind option_bind].
      destruct (IH {| timers := timers r;
                      counters := emplace name count_token_new (counters r);
                      gauges := gauges r |})
        as (r' & Hrun & Ht & Hc & Hg).
      exists r'. split_and!; [exact Hrun|..]; intros n.
      * rewrite asked_cons_other by done. apply Ht.
      * rewrite asked_cons_same. apply emplace_then_asked, Hc.
      * rewrite asked_cons_other by done. apply Hg.
    + rewrite gauge_returns. cbn [mbind option_bind].
      destruct (IH {| timers := timers r; counters := counters r;
                      gauges := emplace name gauge_token_new (gauges r) |})
        as (r' & Hrun & Ht & Hc & Hg).
      exists r'. split_and!; [exact Hrun|..]; intros n.
      * rewrite asked_cons_other by done. apply Ht.
      * rewrite asked_cons_other by done. apply Hc.
      * rewrite asked_cons_same. apply emplace_then_asked, Hg.
Qed.

(** X2.  Any list of lookups, with names repeated or shared between kinds
    in any way, returns, and the registry it leaves is this: a name asked
    for in a kind holds the token it held before in that kind, or a new
    token if it held none, and every other name of that kind holds what it
    held before.  So from [create] the names of each kind are exactly the
    names asked for in that kind, each with a new token. *)
Theorem obtains_create_each_name_once (l : list (kind * string)) (r : registry) :
  ∃ r',
    exec_all (obtains l) r = Some r'
    ∧ (∀ n, timers r' !! n
            = if decide (n ∈ asked timer_kind l)
              then Some (default time_token_new (timers r !! n))
              else timers r !! n)
    ∧ (∀ n, counters r' !! n
            = if decide (n ∈ asked counter_kind l)
              then Some (default count_token_new (counters r !! n))
              else counters r !! n)
    ∧ (∀ n, gauges r' !! n
            = if decide (n ∈ asked gauge_kind l)
              then Some (default gauge_token_new (gauges r !! n))
              else gauges r !! n)
    ∧ (r = create →
         dom (timers r') = list_to_set (asked timer_kind l)
         ∧ dom (counters r') = list_to_set (asked counter_kind l)
         ∧ dom (gauges r') = list_to_set (asked gauge_kind l)).
Proof.
  destruct (exec_all_obtains l r) as (r' & Hrun & Ht & Hc & Hg).
  exists r'. split_and!; try done.
  intros ->. split_and!; apply set_eq; intros n;
    rewrite elem_of_dom, elem_of_list_to_set.
  - rewrite Ht. destruct (decide _) as [Hin|Hnin]; simpl.
    + split; [done | by eexists].
    + rewrite lookup_empty. split; [by intros [? ?] | done].
  - rewrite Hc. destruct (decide _) as [Hin|Hnin]; simpl.
    + split; [done | by eexists].
    + rewrite lookup_empty. split; [by intros [? ?] | done].
  - rewrite Hg. destruct (decide _) as [Hin|Hnin]; simpl.
    + split; [done | by eexists].
    + rewrite lookup_empty. split; [by intros [? ?] | done].
Qed.

(** ** Counters *)

(** What is true of a new counter and is kept by [operator+=] is true of
    every counter of a reachable registry. *)
Lemma reachable_counters_ind (P : count_token → Prop) :
  P count_token_new →
  (∀ now many c, P c → P (count_token_add now many c)) →
  ∀ r, reachable r → map_Forall (λ _, P) (counters r).
Proof.
  intros Hnew Hadd r Hr. induction Hr as [|now o r r' res _ IH Hexec].
  - apply map_Forall_empty.
  - destruct (exec_counters _ _ _ _ _ Hexec)
      as [->|[(name & _ & ->)|(h & many & c & _ & Hc & ->)]]; [done| |].
    + by apply emplace_Forall.
    + apply map_Forall_insert_2; [|done]. apply Hadd, (IH _ _ Hc).
Qed.

(** X3.  In every registry that [create] and the operations lead to, the
    running total of every counter is the total recorded in the last sample
    of its store, and it is an [unsigned long] value. *)
Theorem count_current_is_last_sample
    (r : registry) (name : string) (c : count_token) :
  reachable r → counters r !! name = Some c →
  (∃ at_time, back (counts c) = Some (at_time, current c))
  ∧ 0 ≤ current c < count_modulus.
Proof.
  intros Hr Hc. split.
  - apply (reachable_counters_ind
             (λ c, ∃ at_time, back (counts c) = Some (at_time, current c)))
      with (r := r) (i := name); [| |done|done].
    + exists epoch. cbn [counts current count_token_new].
      apply vector_n_back, prealloc_pos.
    + intros now many c' _. eexists. cbn [counts current count_token_add].
      apply emplace_back_back.
  - destruct (reachable_ok r Hr) as [_ Hcs _]. apply (Hcs _ _ Hc).
Qed.

Lemma reach_count name : reachable (count name create).1.
Proof.
  apply (reach_exec 0 (op_count name) create _
           (ret_count (mk_count_ref name)) reach_create).
  unfold exec. by rewrite count_returns.
Qed.

Lemma reach_run name : reachable (run name create).1.
Proof.
  apply (reach_exec 0 (op_run name) create _
           (ret_time (mk_time_ref name)) reach_create).
  unfold exec. by rewrite run_returns.
Qed.

Lemma reach_gauge name : reachable (gauge name create).1.
Proof.
  apply (reach_exec 0 (op_gauge name) create _
           (ret_gauge (mk_gauge_ref name)) reach_create).
  unfold exec. by rewrite gauge_returns.
Qed.

(** The counter of [main] when it has just been obtained. *)
Lemma count_current_is_last_sample_main :
  (∃ at_time, back (counts count_token_new)
              = Some (at_time, current count_token_new))
  ∧ 0 ≤ current count_token_new < count_modulus.
Proof.
  apply (count_current_is_last_sample (count "completed" create).1
           "completed" count_token_new).
  - apply reach_count.
  - apply count_new_lookup. reflexivity.
Defined.

(** [c++] and [c += 1] leave the same registry. *)
Lemma exec_all_count_calls h l r :
  exec_all (count_calls h l) r = exec_all (adds h (call_amounts l)) r.
Proof.
  revert r. induction l as [|[now [|many]] l IH]; intros r; [done|..].
  - cbn [count_calls call_amounts adds fmap list_fmap exec_all call_amount].
    unfold exec. unfold count_token_incr.
    destruct (update_count h (count_token_add now 1) r) as [r1|];
      cbn [mbind option_bind]; [apply IH | done].
  - cbn [count_calls call_amounts adds fmap list_fmap exec_all call_amount].
    destruct (exec now (op_add h many) r) as [[r1 res]|]; [apply IH | done].
Qed.

(** X4.  On a counter of a reachable registry, any sequence of [c++] and
    [c += many] calls returns; [c++] counts as [c += 1]; the running total
    becomes the old total plus the amounts, modulo 2^64; the store gains one
    sample per call, in call order, each with the clock reading of its call
    and the running total after it; nothing else in the registry changes. *)
Theorem count_calls_add_up
    (r : registry) (h : count_ref) (c : count_token)
    (l : list (time_point * count_call)) :
  reachable r → counters r !! count_key h = Some c →
  ∃ r' c',
    exec_all (count_calls h l) r = Some r'
    ∧ counters r' !! count_key h = Some c'
    ∧ current c' = wrap_count (current c + total (call_amounts l).*2)
    ∧ counts c' = counts c ++ count_samples (current c) (call_amounts l)
    ∧ length (count_samples (current c) (call_amounts l)) = length l
    ∧ (∀ n, n ≠ count_key h → counters r' !! n = counters r !! n)
    ∧ timers r' = timers r
    ∧ gauges r' = gauges r.
Proof.
  intros Hr Hc.
  destruct (reachable_ok r Hr) as [_ Hcs _]. destruct (Hcs _ _ Hc) as [_ Hrange].
  destruct (count_token_adds_spec (call_amounts l) c Hrange) as [Hcur Hcounts].
  eexists _, (count_token_adds (call_amounts l) c). split_and!.
  - rewrite exec_all_count_calls. by apply exec_all_adds.
  - cbn [counters]. apply lookup_insert_eq.
  - exact Hcur.
  - exact Hcounts.
  - rewrite count_samples_length. unfold call_amounts. apply length_fmap.
  - intros n Hn. cbn [counters]. by apply lookup_insert_ne.
  - reflexivity.
  - reflexivity.
Qed.

(** The two calls of [main], [count_t++] and [count_t += 100]. *)
Lemma count_calls_add_up_main :
  ∃ r' c',
    exec_all (count_calls (mk_count_ref "completed")
                [(3, call_incr); (4, call_add 100)])
      (count "completed" create).1 = Some r'
    ∧ counters r' !! "completed" = Some c'
    ∧ current c'
      = wrap_count (current count_token_new
                    + total (call_amounts [(3, call_incr); (4, call_add 100)]).*2)
    ∧ counts c'
      = counts count_token_new
        ++ count_samples (current count_token_new)
             (call_amounts [(3, call_incr); (4, call_add 100)])
    ∧ length (count_samples (current count_token_new)
                (call_amounts [(3, call_incr); (4, call_add 100)]))
      = length [(3, call_incr); (4, call_add 100)]
    ∧ (∀ n, n ≠ "completed" →
         counters r' !! n = counters (count "completed" create).1 !! n)
    ∧ timers r' = timers (count "completed" create).1
    ∧ gauges r' = gauges (count "completed" create).1.
Proof.
  apply (count_calls_add_up (count "completed" create).1
           (mk_count_ref "completed") count_token_new
           [(3, call_incr); (4, call_add 100)]).
  - apply reach_count.
  - apply count_new_lookup. reflexivity.
Defined.

Lemma total_take_S_le ks i :
  Forall (λ k, 0 ≤ k) ks → total (take (S i) ks) ≤ total (take (S (S i)) ks).
Proof.
  intros H.
  pose proof (total_take_le (take (S (S i)) ks) (S i) (Forall_take _ _ _ H)) as Hle.
  rewrite take_take in Hle. replace (S i `min` S (S i))%nat with (S i) in Hle by lia.
  apply Hle.
Qed.

(** The recorded totals when nothing wraps. *)
Lemma count_samples_no_wrap base incs i now k :
  0 ≤ base → Forall (λ k, 0 ≤ k) incs.*2 →
  base + total incs.*2 < count_modulus →
  incs !! i = Some (now, k) →
  count_samples base incs !! i = Some (now, base + total (take (S i) incs.*2)).
Proof.
  intros Hbase Hpos Hsum Hi. rewrite (count_samples_lookup _ _ _ _ _ Hi).
  pose proof (total_take_le incs.*2 (S i) Hpos) as H.
  do 2 f_equal. apply wrap_count_small.
  split; [|eapply Z.le_lt_trans; [|apply Hsum]].
  - apply Z.add_nonneg_nonneg; [done | apply H].
  - apply Z.add_le_mono_l, H.
Qed.

(** X5.  As long as the running total does not pass 2^64 - 1, a counter
    only goes up: with amounts that are [unsigned long] values and add up,
    with the running total, to less than 2^64, every appended sample
    records a total between the total before the calls and the total after
    them, and the recorded totals never decrease from one sample to the
    next. *)
Theorem count_totals_never_decrease
    (r : registry) (h : count_ref) (c : count_token)
    (incs : list (time_point * count_type)) :
  counters r !! count_key h = Some c →
  0 ≤ current c →
  Forall (λ k, 0 ≤ k) incs.*2 →
  current c + total incs.*2 < count_modulus →
  ∃ r' c',
    exec_all (adds h incs) r = Some r'
    ∧ counters r' !! count_key h = Some c'
    ∧ counts c' = counts c ++ count_samples (current c) incs
    ∧ current c' = current c + total incs.*2
    ∧ (∀ i sample, count_samples (current c) incs !! i = Some sample →
         current c ≤ sample.2 ≤ current c')
    ∧ nondecreasing (count_samples (current c) incs).*2.
Proof.
  intros Hc Hbase Hpos Hsum.
  assert (0 ≤ current c < count_modulus) as Hrange.
  { pose proof (total_nonneg _ Hpos). lia. }
  destruct (count_token_adds_spec incs c Hrange) as [Hcur Hcounts].
  assert (current (count_token_adds incs c) = current c + total incs.*2) as Hcur'.
  { rewrite Hcur. apply wrap_count_small.
    pose proof (total_nonneg _ Hpos). lia. }
  assert (∀ i sample, count_samples (current c) incs !! i = Some sample →
            ∃ now k, incs !! i = Some (now, k)
                     ∧ sample = (now, current c + total (take (S i) incs.*2)))
    as Hsample.
  { intros i sample Hi.
    destruct (incs !! i) as [[now k]|] eqn:E.
    - exists now, k. split; [done|].
      rewrite (count_samples_no_wrap _ _ _ _ _ Hbase Hpos Hsum E) in Hi.
      by injection Hi as <-.
    - apply lookup_ge_None in E. apply lookup_lt_Some in Hi.
      rewrite count_samples_length in Hi. lia. }
  eexists _, (count_token_adds incs c). split_and!.
  - by apply exec_all_adds.
  - cbn [counters]. apply lookup_insert_eq.
  - exact Hcounts.
  - exact Hcur'.
  - intros i sample Hi. destruct (Hsample _ _ Hi) as (now & k & _ & ->).
    rewrite Hcur'. cbn [snd].
    pose proof (total_take_le incs.*2 (S i) Hpos). lia.
  - intros i a b Ha Hb.
    rewrite list_lookup_fmap in Ha, Hb.
    apply fmap_Some in Ha as (sa & Ha & ->).
    apply fmap_Some in Hb as (sb & Hb & ->).
    destruct (Hsample _ _ Ha) as (? & ? & _ & ->).
    destruct (Hsample _ _ Hb) as (? & ? & _ & ->).
    cbn [snd]. pose proof (total_take_S_le incs.*2 i Hpos). lia.
Qed.

(** Adding 1 and 100, as [main] does, to a new counter. *)
Lemma count_totals_never_decrease_main :
  ∃ r' c',
    exec_all (adds (mk_count_ref "completed") [(3, 1); (4, 100)])
      (count "completed" create).1 = Some r'
    ∧ counters r' !! "completed" = Some c'
    ∧ counts c'
      = counts count_token_new
        ++ count_samples (current count_token_new) [(3, 1); (4, 100)]
    ∧ current c' = current count_token_new + total [(3, 1); (4, 100)].*2
    ∧ (∀ i sample,
         count_samples (current count_token_new) [(3, 1); (4, 100)] !! i
         = Some sample →
         current count_token_new ≤ sample.2 ≤ current c')
    ∧ nondecreasing
        (count_samples (current count_token_new) [(3, 1); (4, 100)]).*2.
Proof.
  apply (count_totals_never_decrease (count "completed" create).1
           (mk_count_ref "completed") count_token_new [(3, 1); (4, 100)]).
  - apply count_new_lookup. reflexivity.
  - reflexivity.
  - repeat constructor; discriminate.
  - reflexivity.
Defined.

(** ** Gauges *)

(** [g = val] and [g.set(val)] leave the same registry. *)
Lemma exec_all_gauge_calls h l r :
  exec_all (gauge_calls h l) r = exec_all (sets h (call_values l)) r.
Proof.
  revert r. induction l as [|[now [val|val]] l IH]; intros r; [done|..].
  - cbn [gauge_calls call_values sets fmap list_fmap exec_all call_value].
    destruct (exec now (op_set h val) r) as [[r1 res]|]; [apply IH | done].
  - cbn [gauge_calls call_values sets fmap list_fmap exec_all call_value].
    unfold exec. unfold gauge_token_assign.
    destruct (update_gauge h (gauge_token_set now val) r) as [r1|];
      cbn [mbind option_bind]; [apply IH | done].
Qed.

(** X6.  On a gauge of the registry, any sequence of [g.set(val)] and
    [g = val] calls returns; the store gains one sample per call, in call
    order, holding the clock reading and the value of the call, equal
    values included; nothing else in the registry changes; and the
    conversion of the gauge then returns the value of the last call. *)
Theorem gauge_calls_append_values
    (r : registry) (h : gauge_ref) (g : gauge_token)
    (l : list (time_point * gauge_call)) :
  gauges r !! gauge_key h = Some g →
  ∃ r' g',
    exec_all (gauge_calls h l) r = Some r'
    ∧ gauges r' !! gauge_key h = Some g'
    ∧ readings g' = readings g ++ call_values l
    ∧ length (call_values l) = length l
    ∧ (∀ n, n ≠ gauge_key h → gauges r' !! n = gauges r !! n)
    ∧ timers r' = timers r
    ∧ counters r' = counters r
    ∧ (∀ l0 now c now', l = l0 ++ [(now, c)] →
         exec now' (op_cast h) r' = Some (r', ret_value (call_value c))).
Proof.
  intros Hg.
  pose proof (gauge_token_sets_spec (call_values l) g) as Hreadings.
  eexists _, (gauge_token_sets (call_values l) g). split_and!.
  - rewrite exec_all_gauge_calls. by apply exec_all_sets.
  - cbn [gauges]. apply lookup_insert_eq.
  - exact Hreadings.
  - unfold call_values. apply length_fmap.
  - intros n Hn. cbn [gauges]. by apply lookup_insert_ne.
  - reflexivity.
  - reflexivity.
  - intros l0 now c now' ->.
    eapply exec_cast; [cbn [gauges]; apply lookup_insert_eq|].
    destruct (gauge_token_sets _ g) as [v]. cbn [readings] in Hreadings.
    rewrite Hreadings. unfold call_values. rewrite fmap_app, app_assoc.
    apply gauge_token_cast_snoc.
Qed.

(** The two calls of [main], [gauge_tok.set(100)] and [gauge_tok = 50]. *)
Lemma gauge_calls_append_values_main :
  ∃ r' g',
    exec_all (gauge_calls (mk_gauge_ref "threads")
                [(1, call_set (gauged_of_int 100));
                 (2, call_assign (gauged_of_int 50))])
      (gauge "threads" create).1 = Some r'
    ∧ gauges r' !! "threads" = Some g'
    ∧ readings g'
      = readings gauge_token_new
        ++ call_values [(1, call_set (gauged_of_int 100));
                        (2, call_assign (gauged_of_int 50))]
    ∧ length (call_values [(1, call_set (gauged_of_int 100));
                           (2, call_assign (gauged_of_int 50))])
      = length [(1, call_set (gauged_of_int 100));
                (2, call_assign (gauged_of_int 50))]
    ∧ (∀ n, n ≠ "threads" →
         gauges r' !! n = gauges (gauge "threads" create).1 !! n)
    ∧ timers r' = timers (gauge "threads" create).1
    ∧ counters r' = counters (gauge "threads" create).1
    ∧ (∀ l0 now c now',
         [(1, call_set (gauged_of_int 100)); (2, call_assign (gauged_of_int 50))]
         = l0 ++ [(now, c)] →
         exec now' (op_cast (mk_gauge_ref "threads")) r'
         = Some (r', ret_value (call_value c))).
Proof.
  apply (gauge_calls_append_values (gauge "threads" create).1
           (mk_gauge_ref "threads") gauge_token_new
           [(1, call_set (gauged_of_int 100));
            (2, call_assign (gauged_of_int 50))]).
  apply gauge_new_lookup. reflexivity.
Defined.

(** ** Timers *)

Lemma exec_all_stops_of h l r t :
  timers r !! time_key h = Some t →
  Forall (λ p, time_tok p.1 = h) l →
  exec_all (stops_of l) r
  = Some {| timers := <[time_key h :=
                          {| durations := durations t ++ stop_samples l |}]>
                        (timers r);
            counters := counters r; gauges := gauges r |}.
Proof.
  intros Ht Hl. revert r t Ht.
  induction Hl as [|[s now] l Hs _ IH]; intros r t Ht.
  - cbn [stops_of stop_samples fmap list_fmap exec_all].
    rewrite app_nil_r. destruct t as [v]. cbn [durations].
    by rewrite insert_id, registry_eta.
  - cbn [stops_of stop_samples fmap list_fmap exec_all]. cbn [fst] in Hs.
    unfold exec, stop. rewrite Hs.
    rewrite (update_time_Some _ _ _ _ Ht). cbn [mbind option_bind].
    fold (stops_of l). erewrite IH by (cbn [timers]; apply lookup_insert_eq).
    cbn [timers counters gauges]. rewrite insert_insert_eq.
    unfold time_token_report, emplace_back, duration_cast. cbn [durations].
    by rewrite <- app_assoc.
Qed.

(** X7.  Any number of stoppers started on one timer, at any times, can be
    stopped in any order and any number of times each: every stop returns
    and appends one sample to the store of that timer, in the order of the
    stops, holding the clock reading at the stop and that reading minus the
    reading at which the stopper stopped was started.  Nothing else in the
    registry changes. *)
Theorem stops_of_many_stoppers
    (r : registry) (h : time_ref) (t : time_token)
    (l : list (stopper * time_point)) :
  timers r !! time_key h = Some t →
  Forall (λ p, time_tok p.1 = h) l →
  ∃ r' t',
    exec_all (stops_of l) r = Some r'
    ∧ timers r' !! time_key h = Some t'
    ∧ durations t' = durations t ++ stop_samples l
    ∧ length (stop_samples l) = length l
    ∧ (∀ i s now, l !! i = Some (s, now) →
         stop_samples l !! i = Some (now, now - start s))
    ∧ (∀ n, n ≠ time_key h → timers r' !! n = timers r !! n)
    ∧ counters r' = counters r
    ∧ gauges r' = gauges r.
Proof.
  intros Ht Hl. eexists _, _. split_and!.
  - by apply (exec_all_stops_of h l r t).
  - cbn [timers]. apply lookup_insert_eq.
  - reflexivity.
  - unfold stop_samples. apply length_fmap.
  - intros i s now Hi. unfold stop_samples. by rewrite list_lookup_fmap, Hi.
  - intros n Hn. cbn [timers]. by apply lookup_insert_ne.
  - reflexivity.
  - reflexivity.
Qed.

(** Two stoppers on the timer of [main], started at 1 and 2; the second is
    stopped first, and then the first one twice. *)
Lemma stops_of_many_stoppers_main :
  ∃ r' t',
    exec_all (stops_of [(time_start 2 (mk_time_ref "query"), 5);
                        (time_start 1 (mk_time_ref "query"), 6);
                        (time_start 1 (mk_time_ref "query"), 9)])
      (run "query" create).1 = Some r'
    ∧ timers r' !! "query" = Some t'
    ∧ durations t'
      = durations time_token_new
        ++ stop_samples [(time_start 2 (mk_time_ref "query"), 5);
                         (time_start 1 (mk_time_ref "query"), 6);
                         (time_start 1 (mk_time_ref "query"), 9)]
    ∧ length (stop_samples [(time_start 2 (mk_time_ref "query"), 5);
                            (time_start 1 (mk_time_ref "query"), 6);
                            (time_start 1 (mk_time_ref "query"), 9)])
      = length [(time_start 2 (mk_time_ref "query"), 5);
                (time_start 1 (mk_time_ref "query"), 6);
                (time_start 1 (mk_time_ref "query"), 9)]
    ∧ (∀ i s now,
         [(time_start 2 (mk_time_ref "query"), 5);
          (time_start 1 (mk_time_ref "query"), 6);
          (time_start 1 (mk_time_ref "query"), 9)] !! i = Some (s, now) →
         stop_samples [(time_start 2 (mk_time_ref "query"), 5);
                       (time_start 1 (mk_time_ref "query"), 6);
                       (time_start 1 (mk_time_ref "query"), 9)] !! i
         = Some (now, now - start s))
    ∧ (∀ n, n ≠ "query" → timers r' !! n = timers (run "query" create).1 !! n)
    ∧ counters r' = counters (run "query" create).1
    ∧ gauges r' = gauges (run "query" create).1.
Proof.
  apply (stops_of_many_stoppers (run "query" create).1 (mk_time_ref "query")
           time_token_new
           [(time_start 2 (mk_time_ref "query"), 5);
            (time_start 1 (mk_time_ref "query"), 6);
            (time_start 1 (mk_time_ref "query"), 9)]).
  - apply run_new_lookup. reflexivity.
  - repeat constructor.
Defined.

(** ** timed *)

(** X8.  A [timed] block on a timer of the registry, whatever operations
    its body runs to the point where the block is left: when the body
    returns, so does the block, and it leaves the registry as the body left
    it except that the store of the timer has gained, after everything the
    body recorded, exactly one sample: the clock reading at the exit and
    that reading minus the reading at the entry. *)
Theorem timed_scope_appends_one_sample
    (r r1 : registry) (h : time_ref) (body : list (time_point * op))
    (now_in now_out : time_point) :
  is_Some (timers r !! time_key h) →
  exec_all body r = Some r1 →
  ∃ t1 r2,
    timers r1 !! time_key h = Some t1
    ∧ timed_scope now_in now_out h body r = Some r2
    ∧ timers r2 !! time_key h
      = Some {| durations := durations t1 ++ [(now_out, now_out - now_in)] |}
    ∧ vec_size (durations t1 ++ [(now_out, now_out - now_in)])
      = vec_size (durations t1) + 1
    ∧ (∀ n, n ≠ time_key h → timers r2 !! n = timers r1 !! n)
    ∧ counters r2 = counters r1
    ∧ gauges r2 = gauges r1.
Proof.
  intros [t Ht] Hbody.
  destruct (exec_all_extends _ _ _ Hbody) as [Hts _ _].
  destruct (Hts _ _ Ht) as (t1 & Ht1 & _).
  exists t1. eexists. split_and!.
  - exact Ht1.
  - unfold timed_scope. rewrite Ht. cbn [mbind option_bind]. rewrite Hbody.
    cbn [mbind option_bind]. unfold timed_leave, stop, timed_enter.
    cbn [time_tok time_start start].
    by rewrite (update_time_Some _ _ _ _ Ht1).
  - cbn [timers]. by rewrite lookup_insert_eq.
  - rewrite vec_size_app. reflexivity.
  - intros n Hn. cbn [timers]. by apply lookup_insert_ne.
  - reflexivity.
  - reflexivity.
Qed.

(** The block at the end of [main], entered at 6 and left at 7. *)
Lemma timed_scope_appends_one_sample_main :
  ∃ t1 r2,
    timers (run "query" create).1 !! "query" = Some t1
    ∧ timed_scope 6 7 (mk_time_ref "query") [] (run "query" create).1 = Some r2
    ∧ timers r2 !! "query" = Some {| durations := durations t1 ++ [(7, 7 - 6)] |}
    ∧ vec_size (durations t1 ++ [(7, 7 - 6)]) = vec_size (durations t1) + 1
    ∧ (∀ n, n ≠ "query" → timers r2 !! n = timers (run "query" create).1 !! n)
    ∧ counters r2 = counters (run "query" create).1
    ∧ gauges r2 = gauges (run "query" create).1.
Proof.
  apply (timed_scope_appends_one_sample (run "query" create).1
           (run "query" create).1 (mk_time_ref "query") [] 6 7).
  - exists time_token_new. apply (run_new_lookup "query" create). reflexivity.
  - reflexivity.
Defined.

(** ** Moving a token out of the registry *)

Lemma take_timer_Some h r t :
  timers r !! time_key h = Some t →
  take_timer h r
  = Some (t, {| timers := <[time_key h := {| durations := [] |}]> (timers r);
                counters := counters r; gauges := gauges r |}).
Proof. intros H. unfold take_timer. rewrite H. by destruct t. Qed.

Lemma take_gauge_Some h r g :
  gauges r !! gauge_key h = Some g →
  take_gauge h r
  = Some (g, {| timers := timers r; counters := counters r;
                gauges := <[gauge_key h := {| readings := [] |}]> (gauges r) |}).
Proof. intros H. unfold take_gauge. rewrite H. by destruct g. Qed.

(** X9.  Moving a timer out of the registry through a reference hands all
    its samples, in order, to the new token and leaves the name in the
    registry with an empty store, without the 10,000,000 initial elements.
    The reference and the stoppers that were started on the timer go on
    denoting the token in the registry: looking the name up again returns
    the same reference and creates nothing, and the stops that follow are
    recorded there, so that its store is then exactly their samples and the
    token that was moved out gets none of them. *)
Theorem take_timer_leaves_empty_store
    (r : registry) (h : time_ref) (t : time_token)
    (l : list (stopper * time_point)) :
  timers r !! time_key h = Some t →
  Forall (λ p, time_tok p.1 = h) l →
  ∃ r1 r2 t2,
    take_timer h r = Some (t, r1)
    ∧ timers r1 !! time_key h = Some {| durations := [] |}
    ∧ (∀ n, n ≠ time_key h → timers r1 !! n = timers r !! n)
    ∧ run (time_key h) r1 = (r1, Some h)
    ∧ exec_all (stops_of l) r1 = Some r2
    ∧ timers r2 !! time_key h = Some t2
    ∧ durations t2 = stop_samples l
    ∧ vec_size (durations t2) = Z.of_nat (length l).
Proof.
  intros Ht Hl.
  set (r1 := {| timers := <[time_key h := {| durations := [] |}]> (timers r);
                counters := counters r; gauges := gauges r |}).
  assert (timers r1 !! time_key h = Some {| durations := [] |}) as Ht1
    by apply lookup_insert_eq.
  exists r1. eexists _, _. split_and!.
  - by apply take_timer_Some.
  - exact Ht1.
  - intros n Hn. by apply lookup_insert_ne.
  - rewrite run_returns, (emplace_present _ _ _ _ Ht1), registry_eta.
    by destruct h.
  - by apply (exec_all_stops_of h l r1 _ Ht1).
  - cbn [timers]. apply lookup_insert_eq.
  - reflexivity.
  - unfold vec_size. cbn [durations app]. unfold stop_samples.
    by rewrite length_fmap.
Qed.

(** The timer of [main], moved out while the stopper started at 0 is
    running; the stopper is stopped at 5. *)
Lemma take_timer_leaves_empty_store_main :
  ∃ r1 r2 t2,
    take_timer (mk_time_ref "query") (run "query" create).1
    = Some (time_token_new, r1)
    ∧ timers r1 !! "query" = Some {| durations := [] |}
    ∧ (∀ n, n ≠ "query" → timers r1 !! n = timers (run "query" create).1 !! n)
    ∧ run "query" r1 = (r1, Some (mk_time_ref "query"))
    ∧ exec_all (stops_of [(time_start 0 (mk_time_ref "query"), 5)]) r1 = Some r2
    ∧ timers r2 !! "query" = Some t2
    ∧ durations t2 = stop_samples [(time_start 0 (mk_time_ref "query"), 5)]
    ∧ vec_size (durations t2)
      = Z.of_nat (length [(time_start 0 (mk_time_ref "query"), 5)]).
Proof.
  apply (take_timer_leaves_empty_store (run "query" create).1
           (mk_time_ref "query") time_token_new
           [(time_start 0 (mk_time_ref "query"), 5)]).
  - apply run_new_lookup. reflexivity.
  - repeat constructor.
Defined.

Lemma gauge_token_cast_set now val g :
  gauge_token_cast (gauge_token_set now val g) = Some val.
Proof. unfold gauge_token_set, emplace_back. apply gauge_token_cast_snoc. Qed.

Lemma gauge_token_cast_assign now val g :
  gauge_token_cast (gauge_token_assign now val g) = Some val.
Proof. apply gauge_token_cast_set. Qed.

(** X10.  Moving a gauge out of the registry through a reference hands all
    its samples, and with them its current value, to the new token and
    leaves the name in the registry with an empty store.  Read through the
    reference, the gauge is then zero whatever it had been set to, by the
    empty-store arm of the conversion; the calls that follow are recorded
    in the registry, where the store is then exactly their samples, and
    the conversion returns the value of the last of them. *)
Theorem take_gauge_forgets_value
    (r : registry) (h : gauge_ref) (g : gauge_token)
    (l : list (time_point * gauge_call)) (now' : time_point) :
  gauges r !! gauge_key h = Some g →
  ∃ r1 r2 g2,
    take_gauge h r = Some (g, r1)
    ∧ gauges r1 !! gauge_key h = Some {| readings := [] |}
    ∧ gauge_cast_branch {| readings := [] |} = empty_store
    ∧ exec now' (op_cast h) r1 = Some (r1, ret_value gauged_zero)
    ∧ gauge (gauge_key h) r1 = (r1, Some h)
    ∧ exec_all (gauge_calls h l) r1 = Some r2
    ∧ gauges r2 !! gauge_key h = Some g2
    ∧ readings g2 = call_values l
    ∧ (∀ l0 now c, l = l0 ++ [(now, c)] →
         exec now' (op_cast h) r2 = Some (r2, ret_value (call_value c))).
Proof.
  intros Hg.
  set (r1 := {| timers := timers r; counters := counters r;
                gauges := <[gauge_key h := {| readings := [] |}]> (gauges r) |}).
  assert (gauges r1 !! gauge_key h = Some {| readings := [] |}) as Hg1
    by apply lookup_insert_eq.
  pose proof (gauge_token_sets_spec (call_values l) {| readings := [] |})
    as Hreadings.
  exists r1. eexists _, (gauge_token_sets (call_values l) {| readings := [] |}).
  split_and!.
  - by apply take_gauge_Some.
  - exact Hg1.
  - reflexivity.
  - by apply (exec_cast _ _ _ _ _ Hg1).
  - rewrite gauge_returns, (emplace_present _ _ _ _ Hg1), registry_eta.
    by destruct h.
  - rewrite exec_all_gauge_calls. by apply exec_all_sets.
  - cbn [gauges]. apply lookup_insert_eq.
  - exact Hreadings.
  - intros l0 now c ->.
    eapply exec_cast; [cbn [gauges]; apply lookup_insert_eq|].
    destruct (gauge_token_sets _ _) as [v]. cbn [readings app] in Hreadings.
    rewrite Hreadings. unfold call_values. rewrite fmap_app.
    apply gauge_token_cast_snoc.
Qed.

(** The gauge of [main], moved out after it was set to 100, and then set
    to 50. *)
Lemma take_gauge_forgets_value_main :
  ∃ r1 r2 g2,
    take_gauge (mk_gauge_ref "threads")
      {| timers := ∅; counters := ∅;
         gauges := {["threads" := gauge_token_set 1 (gauged_of_int 100)
                                    gauge_token_new]} |}
    = Some (gauge_token_set 1 (gauged_of_int 100) gauge_token_new, r1)
    ∧ gauges r1 !! "threads" = Some {| readings := [] |}
    ∧ gauge_cast_branch {| readings := [] |} = empty_store
    ∧ exec 3 (op_cast (mk_gauge_ref "threads")) r1
      = Some (r1, ret_value gauged_zero)
    ∧ gauge "threads" r1 = (r1, Some (mk_gauge_ref "threads"))
    ∧ exec_all (gauge_calls (mk_gauge_ref "threads")
                  [(2, call_assign (gauged_of_int 50))]) r1 = Some r2
    ∧ gauges r2 !! "threads" = Some g2
    ∧ readings g2 = call_values [(2, call_assign (gauged_of_int 50))]
    ∧ (∀ l0 now c, [(2, call_assign (gauged_of_int 50))] = l0 ++ [(now, c)] →
         exec 3 (op_cast (mk_gauge_ref "threads")) r2
         = Some (r2, ret_value (call_value c))).
Proof.
  apply (take_gauge_forgets_value
           {| timers := ∅; counters := ∅;
              gauges := {["threads" := gauge_token_set 1 (gauged_of_int 100)
                                         gauge_token_new]} |}
           (mk_gauge_ref "threads")
           (gauge_token_set 1 (gauged_of_int 100) gauge_token_new)
           [(2, call_assign (gauged_of_int 50))] 3).
  apply lookup_singleton_eq.
Defined.

(** ** main *)

Lemma ret_bind {A B} (x : A) (f : A → option B) : Some x ≫= f = f x.
Proof. reflexivity. Qed.

Lemma main_runs clock :
  main clock
  = Some (gauged_of_int 50,
          {| timers :=
               <["query" := time_token_report (clock 6%nat) (clock 7%nat)
                              (time_token_report (clock 0%nat) (clock 5%nat)
                                 time_token_new)]> ∅;
             counters :=
               <["completed" := count_token_add (clock 4%nat) 100
                                  (count_token_incr (clock 3%nat)
                                     count_token_new)]> ∅;
             gauges :=
               <["threads" := gauge_token_assign (clock 2%nat) (gauged_of_int 50)
                                (gauge_token_set (clock 1%nat) (gauged_of_int 100)
                                   gauge_token_new)]> ∅ |}).
Proof.
  unfold main.
  rewrite run_returns. cbv beta iota zeta. rewrite ret_bind.
  rewrite gauge_returns. cbv beta iota zeta. rewrite ret_bind.
  rewrite count_returns. cbv beta iota zeta. rewrite ret_bind.
  cbn [timers counters gauges time_key gauge_key count_key create].
  rewrite !emplace_absent by apply lookup_empty.
  rewrite lookup_insert_eq, ret_bind.
  erewrite update_gauge_Some by apply lookup_insert_eq. rewrite ret_bind.
  erewrite update_gauge_Some by apply lookup_insert_eq. rewrite ret_bind.
  erewrite update_count_Some by apply lookup_insert_eq. rewrite ret_bind.
  erewrite update_count_Some by apply lookup_insert_eq. rewrite ret_bind.
  cbn [timers counters gauges time_key gauge_key count_key].
  rewrite lookup_insert_eq, ret_bind.
  rewrite gauge_token_cast_assign, ret_bind.
  unfold stop. cbn [time_tok start time_start].
  erewrite update_time_Some by apply lookup_insert_eq. rewrite ret_bind.
  unfold timed_scope. cbn [timers counters gauges time_key].
  rewrite lookup_insert_eq, ret_bind.
  cbn [exec_all]. rewrite ret_bind.
  unfold timed_leave, timed_enter, stop. cbn [time_tok start time_start].
  erewrite update_time_Some by apply lookup_insert_eq. rewrite ret_bind.
  cbn [timers counters gauges time_key gauge_key count_key].
  rewrite !insert_insert_eq.
  reflexivity.
Qed.

(** X11.  Whatever the clock shows, [main] runs to its end without an
    exception: it sends 50 to the output as the value of the gauge, and it
    leaves a registry with one timer, one counter and one gauge, where the
    timer has gained two samples (from the stopper started first and
    stopped after the other calls, then from the [timed] block), the
    counter has the running total 101 and has gained the samples 1 and 101,
    and the gauge has gained the samples 100 and 50, each store after its
    10,000,000 initial elements and each sample with the clock reading of
    its call. *)
Theorem main_records (clock : nat → time_point) :
  ∃ m t c g,
    main clock = Some (gauged_of_int 50, m)
    ∧ dom (timers m) = {["query"]}
    ∧ dom (counters m) = {["completed"]}
    ∧ dom (gauges m) = {["threads"]}
    ∧ timers m !! "query" = Some t
    ∧ durations t
      = durations time_token_new
        ++ [(clock 5%nat, clock 5%nat - clock 0%nat);
            (clock 7%nat, clock 7%nat - clock 6%nat)]
    ∧ counters m !! "completed" = Some c
    ∧ current c = 101
    ∧ counts c
      = counts count_token_new ++ [(clock 3%nat, 1); (clock 4%nat, 101)]
    ∧ gauges m !! "threads" = Some g
    ∧ readings g
      = readings gauge_token_new
        ++ [(clock 1%nat, gauged_of_int 100); (clock 2%nat, gauged_of_int 50)].
Proof.
  eexists _, _, _, _. split_and!.
  - apply main_runs.
  - cbn [timers]. by rewrite insert_empty, dom_singleton_L.
  - cbn [counters]. by rewrite insert_empty, dom_singleton_L.
  - cbn [gauges]. by rewrite insert_empty, dom_singleton_L.
  - cbn [timers]. apply lookup_insert_eq.
  - unfold time_token_report, emplace_back, duration_cast. cbn [durations].
    by rewrite <- app_assoc.
  - cbn [counters]. apply lookup_insert_eq.
  - reflexivity.
  - unfold count_token_incr, count_token_add, emplace_back. cbn [counts current].
    rewrite <- app_assoc. reflexivity.
  - cbn [gauges]. apply lookup_insert_eq.
  - unfold gauge_token_assign, gauge_token_set, emplace_back. cbn [readings].
    by rewrite <- app_assoc.
Qed.
